(** * polls-api: a shallow embedding of the polls application

    The Django application [polls] (models, permissions, serializers and
    views) is embedded as pure functions over an explicit database state.
    Tables are finite maps from primary keys to rows, querysets are lists of
    (primary key, row) pairs, exceptions are values of an error type that is
    threaded through a small state-and-exception monad, and the request
    cycle of the REST framework (authentication gate, handler lookup, object
    lookup, object permission, validation, write) is a function from a
    request and a store to a response and a store. *)

From Stdlib Require Import ZArith Ascii.
From stdpp Require Import base gmap strings list sorting.

(** ** Data model (polls/models.py) *)

(** A text is a string of characters with a code point below 256. *)

(** A row of the user table ([settings.AUTH_USER_MODEL]). *)
Record User := { user_pk : nat; username : string }.

(** Django compares model instances by primary key. *)
Definition User_eqb (u1 u2 : User) : bool := bool_decide (user_pk u1 = user_pk u2).

(** [class Question]: the timestamps are points on an integer time line. *)
Record Question := {
  author : User;
  question_text : string;
  date_published : Z;
  date_created : Z }.

(** [class Choice]: [question] is the foreign key to the question row. *)
Record Choice := { question : nat; choice_text : string }.

(** [class Vote]: [choice] is the foreign key to the choice row. *)
Record Vote := { voter : User; choice : nat; hide_voter : bool }.

(** The three tables of the application, keyed by primary key, and for each
    table the sequence of its [AutoField]: the largest key the table has
    ever given to a row. *)
Record Store := {
  question_table : gmap nat Question;
  choice_table : gmap nat Choice;
  vote_table : gmap nat Vote;
  question_seq : nat;
  choice_seq : nat;
  vote_seq : nat }.

(** ** Managers and querysets *)

(** The order of the keys. *)
Definition pk_asc {A} : relation (nat * A) := λ a b, a.1 ≤ b.1.

Global Instance pk_asc_dec {A} (a b : nat * A) : Decision (pk_asc a b).
Proof. unfold pk_asc; apply _. Defined.

(** [Model.objects.all()]: the rows of a table. A queryset without
    [order_by] leaves the order of its rows to the database; the rows are
    taken in the order of their keys, the order of a scan of the table. *)
Definition objects_all {A} (t : gmap nat A) : list (nat * A) :=
  merge_sort pk_asc (map_to_list t).

(** [question.choices]: the related manager of a question, that is the
    choice rows whose foreign key is the question. *)
Definition Question_choices (st : Store) (question_pk : nat) : list (nat * Choice) :=
  filter (λ r, question r.2 = question_pk) (map_to_list (choice_table st)).

(** [Coalesce(models.Count("choice"), 0)] *)
Definition choice_count (st : Store) (question_pk : nat) : nat :=
  length (Question_choices st question_pk).

(** [Q(date_published__gt=timezone.now()) | Q(choice_count=0)] *)
Definition excluded (now : Z) (st : Store) (r : nat * Question) : Prop :=
  (now < date_published r.2)%Z ∨ choice_count st r.1 = 0.

Global Instance excluded_dec now st r : Decision (excluded now st r).
Proof. unfold excluded; apply _. Defined.

(** [order_by("-date_published")]: most recent first. *)
Definition date_desc : relation (nat * Question) :=
  λ a b, (date_published b.2 ≤ date_published a.2)%Z.

Global Instance date_desc_dec a b : Decision (date_desc a b).
Proof. unfold date_desc; apply _. Defined.

(** [PublishedQuestionManager.get_queryset], evaluated at time [now]. *)
Definition PublishedQuestionManager_get_queryset (now : Z) (st : Store)
    : list (nat * Question) :=
  merge_sort date_desc
    (filter (λ r, ¬ excluded now st r) (map_to_list (question_table st))).

(** ** Exceptions and database effects *)

(** The exceptions the application and the frameworks raise. *)
Inductive Exception :=
  | ValidationError (detail : string)
  | DoesNotExist
  | MultipleObjectsReturned
  | IntegrityError (constraint : string)
  | ValueError
  | Http404
  | NotAuthenticated
  | PermissionDenied
  | MethodNotAllowed.

(** A computation reads and writes the store and returns or raises. *)
Definition DB (A : Type) : Type := Store → (Exception + A) * Store.

Definition ret {A} (a : A) : DB A := λ st, (inr a, st).

Definition raise {A} (e : Exception) : DB A := λ st, (inl e, st).

Definition bind {A B} (m : DB A) (k : A → DB B) : DB B :=
  λ st, match m st with
        | (inr a, st') => k a st'
        | (inl e, st') => (inl e, st')
        end.

Notation "'do' x <- m ; k" := (bind m (λ x, k))
  (at level 10, x name, m at level 100, k at level 200).

(** Lifting of a read-only computation that may raise. *)
Definition lift {A} (f : Store → Exception + A) : DB A := λ st, (f st, st).

(** [transaction.atomic]: when the block raises, every write of the block is
    rolled back and the exception propagates. *)
Definition atomic {A} (m : DB A) : DB A :=
  λ st, match m st with
        | (inr a, st') => (inr a, st')
        | (inl e, _) => (inl e, st)
        end.

(** The primary key the database gives to a new row. The key of an
    [AutoField] is an AUTOINCREMENT column: the new key is one above the
    largest key the table has ever held, which the sequence [seq] of the
    table records, and above every key of the table; the key of a deleted
    row is not given again. The sequence is a row of the database, so a
    rollback restores it with the tables. *)
Definition next_pk {A} (seq : nat) (t : gmap nat A) : nat :=
  S (seq `max` max_list (map_to_list t).*1).

(** [question.save()] for a new question: an INSERT, refused when the unique
    [question_text] is taken. *)
Definition Question_save (q : Question) : DB nat := λ st,
  if decide (Exists (λ r, question_text r.2 = question_text q)
               (map_to_list (question_table st)))
  then (inl (IntegrityError "question_text"), st)
  else let pk := next_pk (question_seq st) (question_table st) in
       (inr pk, {| question_table := <[pk := q]> (question_table st);
                   choice_table := choice_table st;
                   vote_table := vote_table st;
                   question_seq := pk;
                   choice_seq := choice_seq st;
                   vote_seq := vote_seq st |}).

(** [choice.save()] for a new choice of question [question_pk]: an INSERT,
    refused when the text is NULL or when the question already has a choice
    with this text ([unique_choices_per_question]). *)
Definition Choice_save (question_pk : nat) (text : option string) : DB nat := λ st,
  match text with
  | None => (inl (IntegrityError "choice_text"), st)
  | Some t =>
      if decide (Exists (λ r, question r.2 = question_pk ∧ choice_text r.2 = t)
                   (map_to_list (choice_table st)))
      then (inl (IntegrityError "unique_choices_per_question"), st)
      else let pk := next_pk (choice_seq st) (choice_table st) in
           (inr pk, {| question_table := question_table st;
                       choice_table :=
                         <[pk := {| question := question_pk; choice_text := t |}]>
                           (choice_table st);
                       vote_table := vote_table st;
                       question_seq := question_seq st;
                       choice_seq := pk;
                       vote_seq := vote_seq st |})
  end.

(** The loop [for choice in choices: Choice(...).save()]; a choice of the
    payload is a dictionary, read with [choice.get("choice_text")]. *)
Fixpoint save_choices (question_pk : nat) (choices : list (gmap string string)) : DB unit :=
  match choices with
  | [] => ret ()
  | choice :: rest =>
      do _ <- Choice_save question_pk (choice !! "choice_text");
      save_choices question_pk rest
  end.

(** The body of [QuestionManager.create]; [now] is the clock read by
    [auto_now_add] when the question is saved. *)
Definition QuestionManager_create_body (now : Z) (author : User) (question_text : string)
    (date_published : Z) (choices : list (gmap string string)) : DB (nat * Question) :=
  let question := Build_Question author question_text date_published now in
  do pk <- Question_save question;
  do _ <- save_choices pk choices;
  ret (pk, question).

(** [QuestionManager.create], decorated with [@transaction.atomic]. *)
Definition QuestionManager_create (now : Z) (author : User) (question_text : string)
    (date_published : Z) (choices : list (gmap string string)) : DB (nat * Question) :=
  atomic (QuestionManager_create_body now author question_text date_published choices).

(** ** Serializer validation of the choices of a new question *)

(** [[choice.get("choice_text") for choice in choices]] *)
Definition choice_texts (choices : list (gmap string string)) : list (option string) :=
  (λ choice : gmap string string, choice !! "choice_text") <$> choices.

(** Two equal texts at two places of the array. *)
Definition has_duplicate (choices : list (gmap string string)) : Prop :=
  ∃ i j text, i ≠ j ∧
    choice_texts choices !! i = Some text ∧ choice_texts choices !! j = Some text.

(** [QuestionSerializer.validate_choices]; [set(choice_texts)] is a finite
    set, [len] of it its size. *)
Definition validate_choices (choices : list (gmap string string))
    : Exception + list (gmap string string) :=
  if decide (length choices < 2) then inl (ValidationError "Should be at least two.")
  else if decide (20 < length choices) then inl (ValidationError "Should not be more than 20.")
  else
    if decide (size (list_to_set (choice_texts choices) : gset (option string))
               ≠ length (choice_texts choices))
    then inl (ValidationError "Should be unique.")
    else inr choices.

(** ** Requests and responses *)

Inductive Method := GET | HEAD | OPTIONS | POST | PUT | PATCH | DELETE.

Global Instance Method_eq_dec : EqDecision Method.
Proof. solve_decision. Defined.

(** [permissions.SAFE_METHODS] *)
Definition SAFE_METHODS : list Method := [GET; HEAD; OPTIONS].

(** [request.data]: the keys of the parsed body that the serializers read;
    a key that is absent from the body is [None]. [is_html_input] tells a
    body that was sent as a form (form-encoded or multipart, parsed to a
    [QueryDict]) from a JSON body (parsed to a [dict]). *)
Record Data := {
  data_question_text : option string;
  data_date_published : option Z;
  data_choices : option (list (gmap string string));
  data_choice : option nat;
  data_hide_voter : option bool;
  is_html_input : bool }.

(** [request.user] is [None] for the anonymous user. *)
Record Request := { method : Method; user : option User; data : Data }.

Definition is_authenticated (request : Request) : bool :=
  if user request is Some _ then true else false.

(** The routes of polls/urls.py, with the keyword arguments of the path. *)
Inductive Route :=
  | question_list
  | question_detail (pk : nat)
  | question_choice_list (question_pk : nat)
  | question_choice_detail (question_pk pk : nat)
  | question_choice_vote_list (question_pk choice_pk : nat)
  | question_choice_vote_detail (question_pk choice_pk pk : nat).

(** Serialized rows: the readable fields of the three serializers (the
    [url] strings, which come from the URL configuration, are left out). *)
Record QuestionRepr := {
  question_id : nat;
  question_author : nat;
  question_text_repr : string;
  date_published_repr : Z;
  date_created_repr : Z }.

Record ChoiceRepr := { choice_id : nat; choice_text_repr : string; vote_count : nat }.

Record VoteRepr := { vote_id : nat; voter_username : string }.

(** The body of a response. A list is answered with a page: [count] is the
    number of rows of the queryset and [results] holds the rows of the page
    (the links to the next and the previous page are left out). *)
Inductive Content :=
  | Questions (count : nat) (results : list QuestionRepr)
  | OneQuestion (row : QuestionRepr)
  | Choices (count : nat) (results : list ChoiceRepr)
  | OneChoice (row : ChoiceRepr)
  | Votes (count : nat) (results : list VoteRepr)
  | OneVote (row : VoteRepr)
  | Metadata
  | NoContent
  | Error (e : Exception).

Record Response := { status_code : nat; content : Content }.

(** The status of the response to an exception. The REST framework answers
    its own exceptions and [Http404]; any other exception is a server error.
    Modelled from the spec: the status of an unauthenticated request, which
    depends on the authentication classes of the project settings (not among
    the sources); the spec gives 403 for it. *)
Definition exception_status (e : Exception) : nat :=
  match e with
  | ValidationError _ => 400
  | NotAuthenticated | PermissionDenied => 403
  | Http404 => 404
  | MethodNotAllowed => 405
  | DoesNotExist | MultipleObjectsReturned | IntegrityError _ | ValueError => 500
  end.

(** ** Permissions (polls/permissions.py) *)

(** [permissions.BasePermission]: the interface of a permission class. *)
Record BasePermission (Obj : Type) := {
  has_permission : Request → bool;
  has_object_permission : Request → Obj → bool }.

Arguments has_permission {Obj} _ _.
Arguments has_object_permission {Obj} _ _ _.

(** [obj.author == request.user], [obj.voter == request.user] *)
Definition is_user (owner : User) (request : Request) : bool :=
  if user request is Some u then User_eqb owner u else false.

Definition IsAuthorOrReadOnly : BasePermission Question := {|
  has_permission request := is_authenticated request;
  has_object_permission request obj :=
    if decide (method request ∈ SAFE_METHODS ++ [POST]) then true
    else is_user (author obj) request |}.

Definition IsVoterOnly : BasePermission Vote := {|
  has_permission request := is_authenticated request;
  has_object_permission request obj := is_user (voter obj) request |}.

(** Modelled from the spec: the default permission class of the project
    settings (not among the sources), which [ChoiceViewSet] falls back on;
    the spec has every operation require an authenticated identity and the
    choices be readable by any authenticated identity. *)
Definition DEFAULT_PERMISSION {Obj} : BasePermission Obj := {|
  has_permission request := is_authenticated request;
  has_object_permission _ _ := true |}.

(** [APIView.permission_denied] *)
Definition permission_denied (request : Request) : Exception :=
  if is_authenticated request then PermissionDenied else NotAuthenticated.

(** ** Queryset lookups *)

(** The keys that the integer column of a primary key holds. No row is
    stored under a key beyond this range, and a lookup by such a key makes
    the database driver raise before any row is looked up; the lookups
    below are those of a key in the range. *)
Definition key_in_range (pk : nat) : Prop := (Z.of_nat pk < 2 ^ 63)%Z.

(** [queryset.get(pk=pk)] *)
Definition QuerySet_get {A} (queryset : list (nat * A)) (pk : nat) : Exception + nat * A :=
  match filter (λ r, r.1 = pk) queryset with
  | [] => inl DoesNotExist
  | [r] => inr r
  | _ => inl MultipleObjectsReturned
  end.

(** [get_object_or_404(queryset, pk=pk)] *)
Definition get_object_or_404 {A} (queryset : list (nat * A)) (pk : nat) : Exception + nat * A :=
  match QuerySet_get queryset pk with
  | inl DoesNotExist => inl Http404
  | r => r
  end.

(** [GenericAPIView.get_object]: lookup, then object permissions. *)
Definition get_object {A} (permission : BasePermission A) (request : Request)
    (queryset : list (nat * A)) (pk : nat) : Exception + nat * A :=
  match get_object_or_404 queryset pk with
  | inl e => inl e
  | inr obj =>
      if has_object_permission permission request obj.2 then inr obj
      else inl (permission_denied request)
  end.

(** [valid_choices.filter(vote__voter=voter_pk)]: the join of the choices
    with the votes of the voter. *)
Definition filter_vote_voter (st : Store) (valid_choices : list (nat * Choice))
    (voter_pk : nat) : list (nat * Choice) :=
  c ← valid_choices;
  v ← map_to_list (vote_table st);
  if decide (choice v.2 = c.1 ∧ user_pk (voter v.2) = voter_pk) then [c] else [].

(** [ChoiceManager.with_vote_count]: [Coalesce(models.Count("vote"), 0)] *)
Definition with_vote_count (st : Store) : list (nat * (Choice * nat)) :=
  (λ c, (c.1, (c.2, length (filter (λ v, choice v.2 = c.1) (objects_all (vote_table st))))))
    <$> objects_all (choice_table st).

(** ** Serializers (polls/serializers.py) *)

(** Sequencing of validation steps: the first exception is the result. *)
Definition and_then {A B} (r : Exception + A) (k : A → Exception + B) : Exception + B :=
  match r with inl e => inl e | inr a => k a end.

Notation "'try' x <- r ; k" := (and_then r (λ x, k))
  (at level 10, x name, r at level 100, k at level 200).

(** A field that the body must hold. *)
Definition required {A} (field : option A) : Exception + A :=
  match field with
  | Some a => inr a
  | None => inl (ValidationError "This field is required.")
  end.

(** [str.isspace] of a character: the white space among the code points
    below 256. *)
Definition isspace (c : ascii) : bool :=
  bool_decide (nat_of_ascii c ∈ [9; 10; 11; 12; 13; 28; 29; 30; 31; 32; 133; 160]).

(** [str.lstrip], [str.rstrip] and [str.strip] without argument *)
Fixpoint lstrip (s : string) : string :=
  match s with
  | String c rest => if isspace c then lstrip rest else s
  | EmptyString => EmptyString
  end.

Definition rstrip (s : string) : string := String.rev (lstrip (String.rev s)).

Definition strip (s : string) : string := rstrip (lstrip s).

(** ['\x00' in value] *)
Fixpoint has_null (s : string) : bool :=
  match s with
  | String c rest => bool_decide (nat_of_ascii c = 0) || has_null rest
  | EmptyString => false
  end.

(** The serializer field of [models.CharField(max_length=...)]: the text is
    stripped of the white space at its ends ([trim_whitespace]), must not be
    blank, and passes the validators of the field. *)
Definition CharField (max_length : nat) (data : string) : Exception + string :=
  let value := strip data in
  if decide (value = EmptyString) then inl (ValidationError "This field may not be blank.")
  else if decide (max_length < String.length value)
       then inl (ValidationError "Ensure this field has no more characters than allowed.")
       else if has_null value
            then inl (ValidationError "Null characters are not allowed.")
            else inr value.

(** [VoteSerializer.get_voter_username] *)
Definition get_voter_username (obj : Vote) : string :=
  if hide_voter obj then "*******" else username (voter obj).

(** [VoteSerializer.validate_choice]; [question_pk] is read from the
    serializer context, [now] is the clock read by the published manager. *)
Definition validate_choice (now : Z) (question_pk : nat) (choice : nat * Choice)
    (st : Store) : Exception + nat * Choice :=
  try question <- QuerySet_get (PublishedQuestionManager_get_queryset now st) question_pk;
  let valid_choices := Question_choices st question.1 in
  if decide (choice.1 ∈ valid_choices.*1) then inr choice
  else inl (ValidationError "Is not accepted by this question.").

(** The validated data of a vote: each key is optional. *)
Record VoteAttrs := { attrs_choice : option (nat * Choice); attrs_hide_voter : option bool }.

(** [VoteSerializer.validate] *)
Definition validate (now : Z) (question_pk : nat) (request : Request) (attrs : VoteAttrs)
    (st : Store) : Exception + VoteAttrs :=
  try question <- QuerySet_get (PublishedQuestionManager_get_queryset now st) question_pk;
  let valid_choices := Question_choices st question.1 in
  let voted :=
    if user request is Some u then filter_vote_voter st valid_choices (user_pk u) else [] in
  if decide (method request = POST ∧ voted ≠ [])
  then inl (ValidationError "Multiple voting detected.")
  else inr attrs.

(** The [choice] field of the vote serializer: a primary key looked up in
    [Choice.objects.all()], then [validate_choice]; the field is not
    required, and skipped when the body does not hold it. *)
Definition VoteSerializer_choice_field (now : Z) (question_pk : nat) (request : Request)
    (st : Store) : Exception + option (nat * Choice) :=
  match data_choice (data request) with
  | None => inr None
  | Some pk =>
      match QuerySet_get (map_to_list (choice_table st)) pk with
      | inl DoesNotExist => inl (ValidationError "Invalid pk - object does not exist.")
      | inl e => inl e
      | inr choice => try choice <- validate_choice now question_pk choice st; inr (Some choice)
      end
  end.

(** The value that the [hide_voter] field, a [BooleanField] that is not
    required, reads from the body ([Field.get_value]). A form cannot tell an
    unchecked box from a missing one, so a form without the key reads as
    [False], unless the serializer is partial; a JSON body without the key
    gives no value. *)
Definition BooleanField_get_value (partial : bool) (d : Data) : option bool :=
  match data_hide_voter d with
  | Some b => Some b
  | None => if is_html_input d && negb partial then Some false else None
  end.

(** [VoteSerializer.is_valid(raise_exception=True)]: the fields, then
    [validate]; [partial] is the keyword argument of the serializer. *)
Definition VoteSerializer_run_validation (now : Z) (question_pk : nat) (partial : bool)
    (request : Request) (st : Store) : Exception + VoteAttrs :=
  try choice <- VoteSerializer_choice_field now question_pk request st;
  validate now question_pk request
    {| attrs_choice := choice;
       attrs_hide_voter := BooleanField_get_value partial (data request) |} st.

(** [ChoiceSerializer] as the child of the [choices] field: [choice_text] is
    its one writable field. *)
Definition ChoiceSerializer_run_validation (choice : gmap string string)
    : Exception + gmap string string :=
  try text <- required (choice !! "choice_text");
  try text <- CharField 200 text;
  inr {["choice_text" := text]}.

Fixpoint ChoiceSerializer_many (choices : list (gmap string string))
    : Exception + list (gmap string string) :=
  match choices with
  | [] => inr []
  | choice :: rest =>
      try choice <- ChoiceSerializer_run_validation choice;
      try rest <- ChoiceSerializer_many rest;
      inr (choice :: rest)
  end.

(** The validator of the unique [question_text]. *)
Definition UniqueValidator (text : string) (st : Store) : Exception + string :=
  if decide (Exists (λ r, question_text r.2 = text) (map_to_list (question_table st)))
  then inl (ValidationError "question with this question text already exists.")
  else inr text.

(** [QuestionSerializer.is_valid(raise_exception=True)] *)
Definition QuestionSerializer_run_validation (request : Request) (st : Store)
    : Exception + string * Z * list (gmap string string) :=
  try text <- required (data_question_text (data request));
  try text <- CharField 200 text;
  try text <- UniqueValidator text st;
  try date <- required (data_date_published (data request));
  try choices <- required (data_choices (data request));
  try choices <- ChoiceSerializer_many choices;
  try choices <- validate_choices choices;
  inr (text, date, choices).

Definition serialize_question (r : nat * Question) : QuestionRepr := {|
  question_id := r.1;
  question_author := user_pk (author r.2);
  question_text_repr := question_text r.2;
  date_published_repr := date_published r.2;
  date_created_repr := date_created r.2 |}.

Definition serialize_choice (r : nat * (Choice * nat)) : ChoiceRepr := {|
  choice_id := r.1;
  choice_text_repr := choice_text r.2.1;
  vote_count := r.2.2 |}.

Definition serialize_vote (r : nat * Vote) : VoteRepr := {|
  vote_id := r.1;
  voter_username := get_voter_username r.2 |}.

(** ** Writes *)

(** [Vote.objects.create(...)]: an INSERT, refused when the voter already
    has a vote for this choice ([unique_voters_per_choice]). *)
Definition Vote_create (v : Vote) : DB nat := λ st,
  if decide (Exists (λ r, user_pk (voter r.2) = user_pk (voter v) ∧ choice r.2 = choice v)
               (map_to_list (vote_table st)))
  then (inl (IntegrityError "unique_voters_per_choice"), st)
  else let pk := next_pk (vote_seq st) (vote_table st) in
       (inr pk, {| question_table := question_table st;
                   choice_table := choice_table st;
                   vote_table := <[pk := v]> (vote_table st);
                   question_seq := question_seq st;
                   choice_seq := choice_seq st;
                   vote_seq := pk |}).

(** [instance.save()] of a stored vote: an UPDATE, refused when another row
    has the same voter and choice. *)
Definition Vote_save (pk : nat) (v : Vote) : DB unit := λ st,
  if decide (Exists (λ r, r.1 ≠ pk ∧
                          user_pk (voter r.2) = user_pk (voter v) ∧ choice r.2 = choice v)
               (map_to_list (vote_table st)))
  then (inl (IntegrityError "unique_voters_per_choice"), st)
  else (inr (), {| question_table := question_table st;
                   choice_table := choice_table st;
                   vote_table := <[pk := v]> (vote_table st);
                   question_seq := question_seq st;
                   choice_seq := choice_seq st;
                   vote_seq := vote_seq st |}).

(** [instance.delete()] of a vote. *)
Definition Vote_delete (pk : nat) : DB unit := λ st,
  (inr (), {| question_table := question_table st;
              choice_table := choice_table st;
              vote_table := delete pk (vote_table st);
              question_seq := question_seq st;
              choice_seq := choice_seq st;
              vote_seq := vote_seq st |}).

(** [instance.delete()] of a question: [on_delete=CASCADE] takes its choices
    and the votes for them with it. *)
Definition Question_delete (pk : nat) : DB unit := λ st,
  (inr (), {| question_table := delete pk (question_table st);
              choice_table := filter (λ r, question r.2 ≠ pk) (choice_table st);
              vote_table :=
                filter (λ r, question <$> choice_table st !! choice r.2 ≠ Some pk)
                  (vote_table st);
              question_seq := question_seq st;
              choice_seq := choice_seq st;
              vote_seq := vote_seq st |}).

(** ** Views (polls/views.py) *)

(** [APIView.check_permissions], run by [APIView.initial] before the
    handler of the method is looked up. *)
Definition check_permissions {A} (permission : BasePermission A) (request : Request)
    : DB unit :=
  if has_permission permission request then ret () else raise (permission_denied request).

(** [APIView.options] *)
Definition options : DB Response := ret {| status_code := 200; content := Metadata |}.

(** [QuestionViewSet.queryset]: a class attribute, so the manager reads the
    clock once, when the module is loaded, at time [loaded]. *)
Definition QuestionViewSet_queryset (loaded : Z) (st : Store) : list (nat * Question) :=
  PublishedQuestionManager_get_queryset loaded st.

Section Application.

(** Modelled from the spec: the pagination of the list responses. The
    project settings, which configure it, are not among the sources, and the
    spec does not describe it; the tests of the repository read the key
    [count] of every list response, which a pagination class that counts
    the rows produces. Its page size is the parameter [PAGE_SIZE]. *)
Context (PAGE_SIZE : positive).

(** [GenericAPIView.paginate_queryset] with [get_paginated_response], for a
    request without query parameters: the count of the rows and the first
    page of them. *)
Definition paginate {A} (queryset : list A) : nat * list A :=
  (length queryset, take (Pos.to_nat PAGE_SIZE) queryset).

Definition QuestionViewSet_list (loaded : Z) : DB Response := λ st,
  let page := paginate (QuestionViewSet_queryset loaded st) in
  (inr {| status_code := 200;
          content := Questions page.1 (serialize_question <$> page.2) |},
   st).

(** [QuestionViewSet.perform_create] with [QuestionSerializer.create] *)
Definition QuestionViewSet_perform_create (now : Z) (request : Request)
    (validated_data : string * Z * list (gmap string string)) : DB (nat * Question) :=
  match user request with
  | Some u =>
      QuestionManager_create now u validated_data.1.1 validated_data.1.2 validated_data.2
  | None => raise ValueError
  end.

Definition QuestionViewSet_create (now : Z) (request : Request) : DB Response :=
  do validated_data <- lift (QuestionSerializer_run_validation request);
  do instance <- QuestionViewSet_perform_create now request validated_data;
  ret {| status_code := 201; content := OneQuestion (serialize_question instance) |}.

Definition QuestionViewSet_retrieve (loaded : Z) (pk : nat) (request : Request)
    : DB Response :=
  do instance <- lift (λ st,
    get_object IsAuthorOrReadOnly request (QuestionViewSet_queryset loaded st) pk);
  ret {| status_code := 200; content := OneQuestion (serialize_question instance) |}.

Definition QuestionViewSet_destroy (loaded : Z) (pk : nat) (request : Request)
    : DB Response :=
  do instance <- lift (λ st,
    get_object IsAuthorOrReadOnly request (QuestionViewSet_queryset loaded st) pk);
  do _ <- Question_delete instance.1;
  ret {| status_code := 204; content := NoContent |}.

(** [ChoiceViewSet.get_queryset] *)
Definition ChoiceViewSet_get_queryset (st : Store) (question_pk : nat)
    : list (nat * (Choice * nat)) :=
  filter (λ r, question r.2.1 = question_pk) (with_vote_count st).

Definition ChoiceViewSet_list (question_pk : nat) : DB Response := λ st,
  let page := paginate (ChoiceViewSet_get_queryset st question_pk) in
  (inr {| status_code := 200;
          content := Choices page.1 (serialize_choice <$> page.2) |},
   st).

Definition ChoiceViewSet_retrieve (question_pk pk : nat) (request : Request) : DB Response :=
  do instance <- lift (λ st,
    get_object DEFAULT_PERMISSION request (ChoiceViewSet_get_queryset st question_pk) pk);
  ret {| status_code := 200; content := OneChoice (serialize_choice instance) |}.

(** [VoteViewSet.get_queryset] *)
Definition VoteViewSet_get_queryset (st : Store) (choice_pk : nat) : list (nat * Vote) :=
  filter (λ r, choice r.2 = choice_pk) (objects_all (vote_table st)).

Definition VoteViewSet_list (choice_pk : nat) : DB Response := λ st,
  let page := paginate (VoteViewSet_get_queryset st choice_pk) in
  (inr {| status_code := 200;
          content := Votes page.1 (serialize_vote <$> page.2) |},
   st).

(** [VoteViewSet.perform_create] with [ModelSerializer.create]: the voter is
    the requester, the choice of the path stands in for a missing [choice],
    and a [hide_voter] that the validated data do not hold takes the default
    of the model field. *)
Definition VoteViewSet_perform_create (choice_pk : nat) (request : Request)
    (validated_data : VoteAttrs) : DB (nat * Vote) :=
  do target <- match attrs_choice validated_data with
               | None => lift (λ st, QuerySet_get (map_to_list (choice_table st)) choice_pk)
               | Some c => ret c
               end;
  match user request with
  | Some u =>
      let instance := {| voter := u;
                         choice := target.1;
                         hide_voter := default true (attrs_hide_voter validated_data) |} in
      do pk <- Vote_create instance;
      ret (pk, instance)
  | None => raise ValueError
  end.

Definition VoteViewSet_create (now : Z) (question_pk choice_pk : nat) (request : Request)
    : DB Response :=
  do validated_data <- lift (VoteSerializer_run_validation now question_pk false request);
  do instance <- VoteViewSet_perform_create choice_pk request validated_data;
  ret {| status_code := 201; content := OneVote (serialize_vote instance) |}.

Definition VoteViewSet_retrieve (choice_pk pk : nat) (request : Request) : DB Response :=
  do instance <- lift (λ st,
    get_object IsVoterOnly request (VoteViewSet_get_queryset st choice_pk) pk);
  ret {| status_code := 200; content := OneVote (serialize_vote instance) |}.

(** [ModelSerializer.update]: the validated keys are set on the instance. *)
Definition VoteSerializer_update (instance : Vote) (validated_data : VoteAttrs) : Vote := {|
  voter := voter instance;
  choice := from_option fst (choice instance) (attrs_choice validated_data);
  hide_voter := default (hide_voter instance) (attrs_hide_voter validated_data) |}.

(** [update], bound to PUT, and [partial_update], bound to PATCH, which
    makes the serializer partial. *)
Definition VoteViewSet_update (now : Z) (question_pk choice_pk pk : nat) (request : Request)
    : DB Response :=
  do instance <- lift (λ st,
    get_object IsVoterOnly request (VoteViewSet_get_queryset st choice_pk) pk);
  let partial := bool_decide (method request = PATCH) in
  do validated_data <- lift (VoteSerializer_run_validation now question_pk partial request);
  let updated := VoteSerializer_update instance.2 validated_data in
  do _ <- Vote_save instance.1 updated;
  ret {| status_code := 200; content := OneVote (serialize_vote (instance.1, updated)) |}.

Definition VoteViewSet_destroy (choice_pk pk : nat) (request : Request) : DB Response :=
  do instance <- lift (λ st,
    get_object IsVoterOnly request (VoteViewSet_get_queryset st choice_pk) pk);
  do _ <- Vote_delete instance.1;
  ret {| status_code := 204; content := NoContent |}.

(** The view behind each route: the permission gate of the view set, then
    the handler that the router binds to the method. *)
Definition view (loaded now : Z) (route : Route) (request : Request) : DB Response :=
  match route with
  | question_list =>
      do _ <- check_permissions IsAuthorOrReadOnly request;
      match method request with
      | GET | HEAD => QuestionViewSet_list loaded
      | POST => QuestionViewSet_create now request
      | OPTIONS => options
      | _ => raise MethodNotAllowed
      end
  | question_detail pk =>
      do _ <- check_permissions IsAuthorOrReadOnly request;
      match method request with
      | GET | HEAD => QuestionViewSet_retrieve loaded pk request
      | DELETE => QuestionViewSet_destroy loaded pk request
      | OPTIONS => options
      | _ => raise MethodNotAllowed
      end
  | question_choice_list question_pk =>
      do _ <- check_permissions (@DEFAULT_PERMISSION Choice) request;
      match method request with
      | GET | HEAD => ChoiceViewSet_list question_pk
      | OPTIONS => options
      | _ => raise MethodNotAllowed
      end
  | question_choice_detail question_pk pk =>
      do _ <- check_permissions (@DEFAULT_PERMISSION Choice) request;
      match method request with
      | GET | HEAD => ChoiceViewSet_retrieve question_pk pk request
      | OPTIONS => options
      | _ => raise MethodNotAllowed
      end
  | question_choice_vote_list question_pk choice_pk =>
      do _ <- check_permissions IsVoterOnly request;
      match method request with
      | GET | HEAD => VoteViewSet_list choice_pk
      | POST => VoteViewSet_create now question_pk choice_pk request
      | OPTIONS => options
      | _ => raise MethodNotAllowed
      end
  | question_choice_vote_detail question_pk choice_pk pk =>
      do _ <- check_permissions IsVoterOnly request;
      match method request with
      | GET | HEAD => VoteViewSet_retrieve choice_pk pk request
      | PUT | PATCH => VoteViewSet_update now question_pk choice_pk pk request
      | DELETE => VoteViewSet_destroy choice_pk pk request
      | OPTIONS => options
      | _ => raise MethodNotAllowed
      end
  end.

(** [APIView.dispatch]: an exception becomes the response of its status. *)
Definition dispatch (loaded now : Z) (route : Route) (request : Request) (st : Store)
    : Response * Store :=
  match view loaded now route request st with
  | (inr response, st') => (response, st')
  | (inl e, st') => ({| status_code := exception_status e; content := Error e |}, st')
  end.

(** ** Sample data *)

Definition empty_store : Store :=
  {| question_table := ∅; choice_table := ∅; vote_table := ∅;
     question_seq := 0; choice_seq := 0; vote_seq := 0 |}.

Definition alice : User := {| user_pk := 1; username := "alice" |}.
Definition bob : User := {| user_pk := 2; username := "bob" |}.

(** The dictionary [{"choice_text": text}]. *)
Definition choice_data (text : string) : gmap string string := {["choice_text" := text]}.

(** [n] choices with pairwise distinct texts: the empty text, "x", "xx", ... *)
Fixpoint xs (n : nat) : string :=
  match n with 0 => EmptyString | S n => String "x"%char (xs n) end.

Definition numbered_choices (n : nat) : list (gmap string string) :=
  (λ i, choice_data (xs i)) <$> seq 0 n.

Definition no_data : Data := Build_Data None None None None None false.

Definition question_data (text : string) (date : Z) (choices : list (gmap string string))
    : Data :=
  Build_Data (Some text) (Some date) (Some choices) None None false.

Definition vote_data (target : option nat) (hide : option bool) : Data :=
  Build_Data None None None target hide false.

(** The same keys, sent as a form. *)
Definition vote_form (target : option nat) (hide : option bool) : Data :=
  Build_Data None None None target hide true.

(** A store with a question of [alice] that is published at time 100
    (question 1, choices 1 and 2), a question of [alice] whose publication
    date is in the future (question 2, choice 3), and a hidden vote of [bob]
    for choice 1 and an open vote of [alice] for choice 3. *)
Definition sample_store : Store := {|
  question_table :=
    {[ 1 := Build_Question alice "Past question" 50 40;
       2 := Build_Question alice "Future question" 500 40 ]};
  choice_table :=
    {[ 1 := Build_Choice 1 "First choice";
       2 := Build_Choice 1 "Second choice";
       3 := Build_Choice 2 "Third choice" ]};
  vote_table :=
    {[ 1 := Build_Vote bob 1 true;
       2 := Build_Vote alice 3 false ]};
  question_seq := 2;
  choice_seq := 3;
  vote_seq := 2 |}.

(** ** Vocabulary of the statements *)

(** The texts of the choices of a payload, stripped as the field of the
    serializer strips them. *)
Definition trimmed_texts (choices : list (gmap string string)) : list (option string) :=
  (λ text : option string, strip <$> text) <$> choice_texts choices.

(** Two texts at two places of the array that are equal once stripped. *)
Definition has_trimmed_duplicate (choices : list (gmap string string)) : Prop :=
  ∃ i j text, i ≠ j ∧
    trimmed_texts choices !! i = Some text ∧ trimmed_texts choices !! j = Some text.

(** A text that the validators of a [CharField] accept: not blank, not
    longer than [max_length], without a null character. *)
Definition valid_text (max_length : nat) (value : string) : Prop :=
  value ≠ EmptyString ∧ String.length value ≤ max_length ∧ has_null value = false.

(** The question is in the published queryset at time [now]. *)
Definition is_published (now : Z) (st : Store) (question_pk : nat) : Prop :=
  ∃ q, question_table st !! question_pk = Some q ∧
       (date_published q ≤ now)%Z ∧ 1 ≤ choice_count st question_pk.

(** The user holds a vote for some choice of the question. *)
Definition holds_vote (st : Store) (u : User) (question_pk : nat) : Prop :=
  ∃ pk v c, vote_table st !! pk = Some v ∧ user_pk (voter v) = user_pk u ∧
            choice_table st !! choice v = Some c ∧ question c = question_pk.

(** Another stored vote has the voter and the choice of [v]: the condition
    of the constraint [unique_voters_per_choice] on the row [pk]. *)
Definition voter_choice_taken (st : Store) (pk : nat) (v : Vote) : Prop :=
  Exists (λ r, r.1 ≠ pk ∧ user_pk (voter r.2) = user_pk (voter v) ∧ choice r.2 = choice v)
    (map_to_list (vote_table st)).

Global Instance voter_choice_taken_dec st pk v : Decision (voter_choice_taken st pk v).
Proof. unfold voter_choice_taken; apply _. Defined.

(** The store after a request at time 100, the views loaded at time 100. *)
Definition after (st : Store) (route : Route) (request : Request) : Store :=
  (dispatch 100 100 route request st).2.

(** The store that three requests of [alice] reach from the empty store: she
    creates a question published in the past (question 1, choices 1 and 2),
    then a question to be published in the future (question 2, choices 3
    and 4), then votes under the path of question 1 for choice 3, with no
    [choice] in the body. *)
Definition reached_store : Store :=
  let st1 := after empty_store question_list
    {| method := POST; user := Some alice;
       data := question_data "Past question" 50 [choice_data "A"; choice_data "B"] |} in
  let st2 := after st1 question_list
    {| method := POST; user := Some alice;
       data := question_data "Future question" 500 [choice_data "C"; choice_data "D"] |} in
  after st2 (question_choice_vote_list 1 3)
    {| method := POST; user := Some alice; data := no_data |}.

(** ** Consistency of the store *)

(** The constraints of the schema: the unique [question_text], the
    constraints [unique_choices_per_question] and [unique_voters_per_choice],
    and the two foreign keys. *)
Record store_consistent (st : Store) : Prop := {
  unique_question_text :
    ∀ k1 k2 q1 q2, question_table st !! k1 = Some q1 → question_table st !! k2 = Some q2 →
      question_text q1 = question_text q2 → k1 = k2;
  unique_choices_per_question :
    ∀ k1 k2 c1 c2, choice_table st !! k1 = Some c1 → choice_table st !! k2 = Some c2 →
      question c1 = question c2 → choice_text c1 = choice_text c2 → k1 = k2;
  unique_voters_per_choice :
    ∀ k1 k2 v1 v2, vote_table st !! k1 = Some v1 → vote_table st !! k2 = Some v2 →
      user_pk (voter v1) = user_pk (voter v2) → choice v1 = choice v2 → k1 = k2;
  choice_question_stored :
    ∀ k c, choice_table st !! k = Some c → is_Some (question_table st !! question c);
  vote_choice_stored :
    ∀ k v, vote_table st !! k = Some v → is_Some (choice_table st !! choice v) }.

(** ** The serializer with a choice of fields *)

(** [dict.pop(key)]: the dictionary without the key; a missing key is a
    [KeyError], here [None]. The dictionary keeps the order of its items. *)
Definition dict_pop {A} (key : string) (d : list (string * A)) : option (list (string * A)) :=
  if decide (key ∈ d.*1) then Some (filter (λ item, item.1 ≠ key) d) else None.

(** [DynamicFieldsModelSerializer.__init__], after the fields of the
    serializer are built: [fields] is the keyword argument, [None] when it is
    not given, and [self_fields] the dictionary [self.fields]. *)
Definition DynamicFieldsModelSerializer_init {A} (fields : option (list string))
    (self_fields : list (string * A)) : option (list (string * A)) :=
  match fields with
  | None => Some self_fields
  | Some fields =>
      let allowed : gset string := list_to_set fields in
      let existing : gset string := list_to_set self_fields.*1 in
      foldl (λ self_fields field_name, self_fields ≫= dict_pop field_name)
        (Some self_fields) (elements (existing ∖ allowed))
  end.

(** The fields of [VoteSerializer.Meta], each with whether it is written
    only. *)
Definition VoteSerializer_fields : list (string * bool) :=
  [("id", false); ("voter_username", false); ("choice", true); ("hide_voter", true)].

(** The order of the serialized questions: most recently published first. *)
Definition newer_first : relation QuestionRepr :=
  λ r1 r2, (date_published_repr r2 ≤ date_published_repr r1)%Z.

(** * Verification *)

(** ** Properties of the published queryset *)

Global Instance date_desc_trans : Transitive date_desc.
Proof. intros a b c; unfold date_desc; lia. Qed.

Global Instance date_desc_total : Total date_desc.
Proof. intros a b; unfold date_desc; lia. Qed.

Lemma not_excluded_iff now st r :
  ¬ excluded now st r ↔ (date_published r.2 ≤ now)%Z ∧ 1 ≤ choice_count st r.1.
Proof. unfold excluded; lia. Qed.

Lemma elem_of_published now st pk q :
  (pk, q) ∈ PublishedQuestionManager_get_queryset now st ↔
  question_table st !! pk = Some q ∧ (date_published q ≤ now)%Z ∧ 1 ≤ choice_count st pk.
Proof.
  unfold PublishedQuestionManager_get_queryset.
  rewrite merge_sort_Permutation, list_elem_of_filter, elem_of_map_to_list.
  rewrite not_excluded_iff; simpl; tauto.
Qed.

Lemma NoDup_fst_filter {A} (P : nat * A → Prop) `{∀ x, Decision (P x)} (l : list (nat * A)) :
  NoDup l.*1 → NoDup (filter P l).*1.
Proof.
  induction l as [|x l IH]; simpl; [constructor|].
  rewrite NoDup_cons; intros [Hx Hl].
  rewrite filter_cons; destruct (decide (P x)); simpl; [|auto].
  apply NoDup_cons; split; [|auto].
  intros Hin; apply Hx.
  apply list_elem_of_fmap in Hin as (y & -> & Hy).
  apply list_elem_of_fmap; exists y; split; [done|].
  by apply list_elem_of_filter in Hy as [_ ?].
Qed.

Lemma NoDup_published_pks now st :
  NoDup (PublishedQuestionManager_get_queryset now st).*1.
Proof.
  unfold PublishedQuestionManager_get_queryset.
  rewrite merge_sort_Permutation.
  apply NoDup_fst_filter, NoDup_fst_map_to_list.
Qed.

(** C1: the published queryset holds exactly the stored questions with
    [date_published ≤ now] and at least one choice, each of them once, most
    recently published first; a question with a future publication date or
    with no choice is not in it. *)
Theorem published_questions_exact_and_ordered (now : Z) (st : Store) :
  let qs := PublishedQuestionManager_get_queryset now st in
  (∀ pk q, (pk, q) ∈ qs ↔
     question_table st !! pk = Some q ∧
     (date_published q ≤ now)%Z ∧ 1 ≤ choice_count st pk) ∧
  NoDup qs.*1 ∧
  StronglySorted date_desc qs ∧
  (∀ pk q, (now < date_published q)%Z ∨ choice_count st pk = 0 → (pk, q) ∉ qs).
Proof.
  intros qs; split; [|split; [|split]].
  - intros pk q; apply elem_of_published.
  - apply NoDup_published_pks.
  - apply (StronglySorted_merge_sort _).
  - intros pk q Hex Hin. apply elem_of_published in Hin. lia.
Qed.


(** ** Primary keys and lookups *)

Lemma next_pk_fresh {A} (seq : nat) (t : gmap nat A) : t !! next_pk seq t = None.
Proof.
  apply eq_None_not_Some; intros [a Ha].
  assert (next_pk seq t ∈ (map_to_list t).*1) as Hin.
  { apply list_elem_of_fmap; exists (next_pk seq t, a); split; [done|].
    by apply elem_of_map_to_list. }
  apply max_list_elem_of_le in Hin. unfold next_pk in Hin. lia.
Qed.

(** A key that the table gave to a row, stored or since deleted, is not
    given again. *)
Lemma next_pk_above_seq {A} (seq : nat) (t : gmap nat A) : seq < next_pk seq t.
Proof. unfold next_pk. lia. Qed.

Lemma filter_pk_absent {A} (l : list (nat * A)) pk :
  pk ∉ l.*1 → filter (λ r, r.1 = pk) l = [].
Proof.
  induction l as [|x l IH]; [done|].
  rewrite fmap_cons, not_elem_of_cons; intros [Hx Hl].
  rewrite filter_cons. destruct (decide (x.1 = pk)); [congruence|auto].
Qed.

Lemma filter_pk_present {A} (l : list (nat * A)) pk a :
  NoDup l.*1 → (pk, a) ∈ l → filter (λ r, r.1 = pk) l = [(pk, a)].
Proof.
  induction l as [|x l IH]; [by rewrite elem_of_nil|].
  rewrite fmap_cons, NoDup_cons, elem_of_cons; intros [Hx Hl] Hin.
  rewrite filter_cons. destruct (decide (x.1 = pk)) as [Heq|Hne].
  - rewrite Heq in Hx. destruct Hin as [Hin|Hin].
    + rewrite <- Hin. f_equal. by apply filter_pk_absent.
    + exfalso; apply Hx.
      apply list_elem_of_fmap; by exists (pk, a).
  - destruct Hin as [Hin|Hin]; [by rewrite <- Hin in Hne|auto].
Qed.

Lemma QuerySet_get_present {A} (l : list (nat * A)) pk a :
  NoDup l.*1 → (pk, a) ∈ l → QuerySet_get l pk = inr (pk, a).
Proof. intros ??; unfold QuerySet_get; by erewrite filter_pk_present. Qed.

Lemma QuerySet_get_absent {A} (l : list (nat * A)) pk :
  pk ∉ l.*1 → QuerySet_get l pk = inl DoesNotExist.
Proof. intros ?; unfold QuerySet_get; by rewrite filter_pk_absent. Qed.

Lemma QuerySet_get_table {A} (t : gmap nat A) pk :
  QuerySet_get (map_to_list t) pk =
  match t !! pk with Some a => inr (pk, a) | None => inl DoesNotExist end.
Proof.
  destruct (t !! pk) as [a|] eqn:Hpk.
  - apply QuerySet_get_present; [apply NoDup_fst_map_to_list|].
    by apply elem_of_map_to_list.
  - apply QuerySet_get_absent. intros Hin.
    apply list_elem_of_fmap in Hin as ([k a] & -> & Hin).
    apply elem_of_map_to_list in Hin; simpl in *; congruence.
Qed.

Lemma QuerySet_get_published now st pk :
  QuerySet_get (PublishedQuestionManager_get_queryset now st) pk =
  match question_table st !! pk with
  | Some q =>
      if decide ((date_published q ≤ now)%Z ∧ 1 ≤ choice_count st pk)
      then inr (pk, q) else inl DoesNotExist
  | None => inl DoesNotExist
  end.
Proof.
  destruct (question_table st !! pk) as [q|] eqn:Hpk; [case_decide as Hpub|].
  - apply QuerySet_get_present; [apply NoDup_published_pks|].
    apply elem_of_published; tauto.
  - apply QuerySet_get_absent. intros Hin.
    apply list_elem_of_fmap in Hin as ([k q'] & -> & Hin).
    apply elem_of_published in Hin; simpl in *.
    destruct Hin as (Hq & ?); rewrite Hpk in Hq; simplify_eq; tauto.
  - apply QuerySet_get_absent. intros Hin.
    apply list_elem_of_fmap in Hin as ([k q'] & -> & Hin).
    apply elem_of_published in Hin; simpl in *.
    destruct Hin as (Hq & ?); congruence.
Qed.

(** The rows of a table *)

Lemma objects_all_Permutation {A} (t : gmap nat A) : objects_all t ≡ₚ map_to_list t.
Proof. apply merge_sort_Permutation. Qed.

Lemma elem_of_objects_all {A} (t : gmap nat A) k a : (k, a) ∈ objects_all t ↔ t !! k = Some a.
Proof. rewrite objects_all_Permutation. apply elem_of_map_to_list. Qed.

Lemma NoDup_fst_objects_all {A} (t : gmap nat A) : NoDup (objects_all t).*1.
Proof. rewrite objects_all_Permutation. apply NoDup_fst_map_to_list. Qed.

Global Instance pk_asc_trans {A} : Transitive (@pk_asc A).
Proof. intros a b c; unfold pk_asc; lia. Qed.

Global Instance pk_asc_total {A} : Total (@pk_asc A).
Proof. intros a b; unfold pk_asc; lia. Qed.

Lemma objects_all_sorted {A} (t : gmap nat A) : StronglySorted pk_asc (objects_all t).
Proof. apply (StronglySorted_merge_sort _). Qed.

(** ** Creation of a question *)

Lemma atomic_failure {A} (m : DB A) st e st' :
  atomic m st = (inl e, st') → st' = st ∧ ∃ st'', m st = (inl e, st'').
Proof.
  unfold atomic. destruct (m st) as [[e'|a] st'']; intros; simplify_eq; eauto.
Qed.

Lemma save_choices_app question_pk pre post st :
  save_choices question_pk (pre ++ post) st =
  match save_choices question_pk pre st with
  | (inr _, st') => save_choices question_pk post st'
  | (inl e, st') => (inl e, st')
  end.
Proof.
  revert st; induction pre as [|c pre IH]; intros st; simpl; [done|].
  unfold bind. destruct (Choice_save _ _ st) as [[e|k] st']; [done|apply IH].
Qed.

Lemma Choice_save_question_table question_pk text st r st' :
  Choice_save question_pk text st = (r, st') → question_table st' = question_table st.
Proof.
  unfold Choice_save. destruct text; [case_decide|]; intros; by simplify_eq.
Qed.

Lemma save_choices_question_table question_pk choices st r st' :
  save_choices question_pk choices st = (r, st') → question_table st' = question_table st.
Proof.
  revert st; induction choices as [|c choices IH]; intros st; simpl.
  - unfold ret; intros; by simplify_eq.
  - unfold bind. destruct (Choice_save _ _ st) as [[e|k] st1] eqn:Hc.
    + intros; simplify_eq. by eapply Choice_save_question_table.
    + intros Hrest. rewrite (IH _ Hrest). by eapply Choice_save_question_table.
Qed.

Lemma Question_save_inserts q st pk st1 :
  Question_save q st = (inr pk, st1) →
  question_table st !! pk = None ∧ question_table st1 !! pk = Some q.
Proof.
  unfold Question_save. case_decide; intros; simplify_eq; simpl.
  split; [apply next_pk_fresh|apply lookup_insert_eq].
Qed.

(** Whatever makes [QuestionManager.create] raise, the store is the one the
    call started from. *)
Lemma QuestionManager_create_failure now a text date choices st e st' :
  QuestionManager_create now a text date choices st = (inl e, st') → st' = st.
Proof. intros H; by apply atomic_failure in H as [? _]. Qed.

(** C2: when the insert of some choice of the payload fails, after the
    question row and the choices before it were inserted, the create raises
    and leaves the store it started from: the question row that was pending
    is gone, and with it every choice row of the create. *)
Theorem QuestionManager_create_all_or_nothing
    (now : Z) (a : User) (text : string) (date : Z)
    (pre : list (gmap string string)) (c : gmap string string)
    (post : list (gmap string string))
    (st st1 st2 st3 : Store) (pk : nat) (e : Exception) :
  Question_save (Build_Question a text date now) st = (inr pk, st1) →
  save_choices pk pre st1 = (inr (), st2) →
  Choice_save pk (c !! "choice_text") st2 = (inl e, st3) →
  QuestionManager_create now a text date (pre ++ c :: post) st = (inl e, st) ∧
  question_table st3 !! pk = Some (Build_Question a text date now) ∧
  question_table st !! pk = None.
Proof.
  intros Hq Hpre Hc.
  apply Question_save_inserts in Hq as Hrow. destruct Hrow as [Hnone Hsome].
  split; [|split; [|done]].
  - unfold QuestionManager_create, atomic, QuestionManager_create_body, bind.
    rewrite Hq, save_choices_app, Hpre. simpl. unfold bind. by rewrite Hc.
  - rewrite (Choice_save_question_table _ _ _ _ _ Hc).
    by rewrite (save_choices_question_table _ _ _ _ _ Hpre).
Qed.

(** ** Validation of the choices of a new question *)

Lemma size_list_to_set_le (l : list (option string)) :
  size (list_to_set l : gset (option string)) ≤ length l.
Proof.
  induction l as [|x l IH]; [done|].
  rewrite list_to_set_cons; simpl.
  rewrite size_union_alt, size_singleton.
  assert (size (list_to_set l ∖ {[x]} : gset (option string)) ≤
          size (list_to_set l : gset (option string))) as Hsub
    by (apply subseteq_size; set_solver).
  lia.
Qed.

Lemma size_list_to_set_NoDup (l : list (option string)) :
  size (list_to_set l : gset (option string)) = length l ↔ NoDup l.
Proof.
  split; [|apply size_list_to_set].
  induction l as [|x l IH]; [constructor|].
  rewrite list_to_set_cons; simpl.
  intros Hsize. pose proof (size_list_to_set_le l) as Hle.
  destruct (decide (x ∈ l)) as [Hin|Hin].
  - exfalso.
    assert ({[x]} ∪ list_to_set l = (list_to_set l : gset (option string))) as Heq
      by set_solver.
    rewrite Heq in Hsize. lia.
  - apply NoDup_cons; split; [done|]. apply IH.
    rewrite size_union, size_singleton in Hsize by set_solver. lia.
Qed.

Lemma validate_choices_ok choices :
  validate_choices choices = inr choices ↔
  2 ≤ length choices ≤ 20 ∧ NoDup (choice_texts choices).
Proof.
  unfold validate_choices. rewrite <- size_list_to_set_NoDup.
  repeat case_decide; split; intros; simplify_eq; done || lia.
Qed.

Lemma validate_choices_error choices e :
  validate_choices choices = inl e → ∃ detail, e = ValidationError detail.
Proof. unfold validate_choices. repeat case_decide; intros; simplify_eq; eauto. Qed.

Lemma validate_choices_inr choices choices' :
  validate_choices choices = inr choices' → choices' = choices.
Proof. unfold validate_choices. repeat case_decide; intros; by simplify_eq. Qed.

Lemma repeated_NoDup {A} `{EqDecision A} (l : list A) :
  (∃ i j x, i ≠ j ∧ l !! i = Some x ∧ l !! j = Some x) ↔ ¬ NoDup l.
Proof.
  rewrite NoDup_alt. split.
  - intros (i & j & x & Hne & Hi & Hj) Hnd. by apply Hne, (Hnd i j x).
  - intros Hnd.
    destruct (decide (NoDup l)) as [Hyes|Hno].
    + exfalso; apply Hnd. by apply NoDup_alt.
    + clear Hnd. induction l as [|x l IH]; [by destruct Hno; constructor|].
      destruct (decide (x ∈ l)) as [Hin|Hin].
      * apply list_elem_of_lookup in Hin as [j Hj].
        exists 0, (S j), x. by repeat split.
      * destruct IH as (i & j & y & ? & ? & ?).
        { intros Hl; apply Hno; by constructor. }
        exists (S i), (S j), y. repeat split; [lia|done..].
Qed.

Lemma has_duplicate_NoDup choices : has_duplicate choices ↔ ¬ NoDup (choice_texts choices).
Proof. apply repeated_NoDup. Qed.

Lemma has_trimmed_duplicate_NoDup choices :
  has_trimmed_duplicate choices ↔ ¬ NoDup (trimmed_texts choices).
Proof. apply repeated_NoDup. Qed.

Lemma has_duplicate_trimmed choices : has_duplicate choices → has_trimmed_duplicate choices.
Proof.
  intros (i & j & text & Hne & Hi & Hj). exists i, j, (strip <$> text).
  unfold trimmed_texts. rewrite !list_lookup_fmap, Hi, Hj. done.
Qed.

(** The field strips the text and lets it through exactly when the stripped
    text is valid. *)
Lemma CharField_inr max_length data value :
  CharField max_length data = inr value ↔
  value = strip data ∧ valid_text max_length (strip data).
Proof.
  unfold CharField, valid_text.
  destruct (has_null (strip data)) eqn:Hnull; repeat case_decide;
    split; intros; simplify_eq; try done; try (intuition (done || lia || congruence)).
Qed.

Lemma CharField_error max_length data e :
  CharField max_length data = inl e → ∃ detail, e = ValidationError detail.
Proof.
  unfold CharField. destruct (has_null (strip data)); repeat case_decide;
    intros; simplify_eq; eauto.
Qed.

Lemma ChoiceSerializer_run_validation_error choice e :
  ChoiceSerializer_run_validation choice = inl e → ∃ detail, e = ValidationError detail.
Proof.
  unfold ChoiceSerializer_run_validation, required, and_then.
  destruct (choice !! "choice_text") as [text|]; [|intros; simplify_eq; eauto].
  destruct (CharField 200 text) eqn:Hfield; [|done].
  intros; simplify_eq. by eapply CharField_error.
Qed.

Lemma ChoiceSerializer_run_validation_inr choice validated :
  ChoiceSerializer_run_validation choice = inr validated ↔
  ∃ text, choice !! "choice_text" = Some text ∧ valid_text 200 (strip text) ∧
          validated = {["choice_text" := strip text]}.
Proof.
  unfold ChoiceSerializer_run_validation, required, and_then.
  destruct (choice !! "choice_text") as [text|]; [|naive_solver].
  destruct (CharField 200 text) as [e|value] eqn:Hfield.
  - split; [done|]. intros (text' & [= <-] & Hvalid & _).
    assert (CharField 200 text = inr (strip text)) as Hok by by apply CharField_inr.
    congruence.
  - apply CharField_inr in Hfield as [-> Hvalid]. naive_solver.
Qed.

Lemma ChoiceSerializer_many_error choices e :
  ChoiceSerializer_many choices = inl e → ∃ detail, e = ValidationError detail.
Proof.
  induction choices as [|c choices IH]; simpl; [done|].
  unfold and_then.
  destruct (ChoiceSerializer_run_validation c) eqn:Hc.
  - intros; simplify_eq. by eapply ChoiceSerializer_run_validation_error.
  - destruct (ChoiceSerializer_many choices); intros; simplify_eq; eauto.
Qed.

Lemma ChoiceSerializer_many_texts choices choices' :
  ChoiceSerializer_many choices = inr choices' →
  choice_texts choices' = trimmed_texts choices.
Proof.
  revert choices'; induction choices as [|c choices IH]; intros choices'; simpl.
  - intros; by simplify_eq.
  - unfold and_then.
    destruct (ChoiceSerializer_run_validation c) as [e|c'] eqn:Hc; [done|].
    destruct (ChoiceSerializer_many choices) as [e|rest] eqn:Hrest; [done|].
    intros; simplify_eq.
    apply ChoiceSerializer_run_validation_inr in Hc as (text & Htext & _ & ->).
    specialize (IH _ eq_refl). unfold trimmed_texts, choice_texts in *.
    rewrite !fmap_cons, IH, Htext. by rewrite lookup_singleton_eq.
Qed.

Lemma QuestionSerializer_run_validation_error request st e :
  QuestionSerializer_run_validation request st = inl e → ∃ detail, e = ValidationError detail.
Proof.
  unfold QuestionSerializer_run_validation, required, UniqueValidator, and_then.
  repeat (case_match || case_decide); intros; simplify_eq; eauto using
    CharField_error, ChoiceSerializer_many_error, validate_choices_error.
Qed.

Lemma QuestionSerializer_run_validation_choices request st text date choices' :
  QuestionSerializer_run_validation request st = inr (text, date, choices') →
  ∃ choices, data_choices (data request) = Some choices ∧
    choice_texts choices' = trimmed_texts choices ∧
    2 ≤ length choices' ≤ 20 ∧ NoDup (choice_texts choices').
Proof.
  unfold QuestionSerializer_run_validation, required, UniqueValidator, and_then.
  repeat (case_match || case_decide); intros; simplify_eq.
  eexists; split; [done|].
  match goal with H : validate_choices _ = inr _ |- _ =>
    pose proof (validate_choices_inr _ _ H); subst; apply validate_choices_ok in H end.
  split; [by apply ChoiceSerializer_many_texts|done].
Qed.

Lemma ChoiceSerializer_many_success choices texts :
  choice_texts choices = Some <$> texts →
  Forall (λ t, valid_text 200 (strip t)) texts →
  ChoiceSerializer_many choices = inr (choice_data ∘ strip <$> texts).
Proof.
  revert choices. induction texts as [|t texts IH]; intros choices Htexts Hvalid.
  - by destruct choices.
  - destruct choices as [|c choices]; [done|].
    unfold choice_texts in Htexts. rewrite !fmap_cons in Htexts.
    injection Htexts as Hc Hrest. apply Forall_cons in Hvalid as [Hvalid Hrestvalid].
    simpl. unfold and_then.
    assert (ChoiceSerializer_run_validation c = inr (choice_data (strip t))) as ->.
    { apply ChoiceSerializer_run_validation_inr. by exists t. }
    by rewrite (IH choices Hrest Hrestvalid).
Qed.

(** C3, amended: [validate_choices] raises a validation error, which is
    answered with status 400, when the array it is given has fewer than 2 or
    more than 20 choices or holds the same text at two places, and returns
    the array when it has 2 to 20 pairwise distinct texts. The array it is
    given holds the texts of the payload stripped of the white space at
    their ends, so the POST of a question whose choices are fewer than 2 or
    more than 20, or hold two texts that are equal once stripped (two equal
    texts are), is answered with 400 and writes nothing; and the choices of
    a payload that hold 2 to 20 texts, pairwise distinct once stripped, pass
    the check as soon as they reach it, which they do when each stripped
    text is valid. *)
Theorem choices_bounds_and_distinct_after_strip (choices : list (gmap string string)) :
  (length choices < 2 ∨ 20 < length choices ∨ has_duplicate choices →
   ∃ detail, validate_choices choices = inl (ValidationError detail) ∧
             exception_status (ValidationError detail) = 400) ∧
  (2 ≤ length choices ≤ 20 ∧ ¬ has_duplicate choices →
   validate_choices choices = inr choices) ∧
  (has_duplicate choices → has_trimmed_duplicate choices) ∧
  (length choices < 2 ∨ 20 < length choices ∨ has_trimmed_duplicate choices →
   ∀ loaded now u d st, data_choices d = Some choices →
   ∃ detail,
     dispatch loaded now question_list {| method := POST; user := Some u; data := d |} st =
     ({| status_code := 400; content := Error (ValidationError detail) |}, st)) ∧
  (2 ≤ length choices ≤ 20 ∧ ¬ has_trimmed_duplicate choices →
   (∀ validated, ChoiceSerializer_many choices = inr validated →
      validate_choices validated = inr validated) ∧
   (∀ texts, choice_texts choices = Some <$> texts →
      Forall (λ t, valid_text 200 (strip t)) texts →
      ChoiceSerializer_many choices = inr (choice_data ∘ strip <$> texts))).
Proof.
  split; [|split; [|split; [|split]]].
  - rewrite has_duplicate_NoDup.
    intros Hbad. destruct (validate_choices choices) as [e|choices'] eqn:Hv.
    + apply validate_choices_error in Hv as [detail ->]. eauto.
    + pose proof (validate_choices_inr _ _ Hv); subst.
      apply validate_choices_ok in Hv. exfalso. intuition lia.
  - rewrite has_duplicate_NoDup.
    intros [Hlen Hnd]. apply validate_choices_ok. split; [done|].
    by destruct (decide (NoDup (choice_texts choices))).
  - apply has_duplicate_trimmed.
  - rewrite has_trimmed_duplicate_NoDup.
    intros Hbad loaded now u d st Hd.
    unfold dispatch, view, check_permissions, bind; simpl.
    unfold QuestionViewSet_create, bind, lift.
    destruct (QuestionSerializer_run_validation _ st) as [e|[[text date] choices']] eqn:Hv.
    + apply QuestionSerializer_run_validation_error in Hv as [detail ->]. eauto.
    + apply QuestionSerializer_run_validation_choices in Hv
        as (choices0 & Hd0 & Htexts & Hlen & Hnd); simpl in Hd0.
      rewrite Hd in Hd0; simplify_eq.
      pose proof (f_equal length Htexts) as Hl.
      unfold trimmed_texts, choice_texts in Hl; rewrite !length_fmap in Hl.
      rewrite Htexts in Hnd. exfalso. intuition lia.
  - rewrite has_trimmed_duplicate_NoDup. intros [Hlen Hnd]. split.
    + intros validated Hmany. apply validate_choices_ok.
      apply ChoiceSerializer_many_texts in Hmany as Htexts.
      pose proof (f_equal length Htexts) as Hl.
      unfold trimmed_texts, choice_texts in Hl; rewrite !length_fmap in Hl.
      rewrite Htexts. split; [lia|].
      by destruct (decide (NoDup (trimmed_texts choices))).
    + intros texts Htexts Hvalid. by apply ChoiceSerializer_many_success.
Qed.

(** ** The authentication gate *)

(** C7: on every route and for every method, a request without an
    authenticated identity is answered with 403, whatever the store holds,
    and the store is left as it was. *)
Theorem unauthenticated_request_rejected
    (loaded now : Z) (route : Route) (request : Request) (st : Store) :
  user request = None →
  dispatch loaded now route request st =
  ({| status_code := 403; content := Error NotAuthenticated |}, st).
Proof.
  intros Hu. unfold dispatch, view, bind, check_permissions.
  destruct route; simpl; unfold permission_denied, is_authenticated; by rewrite Hu.
Qed.

(** ** Question endpoints and the published queryset *)

Lemma get_object_or_404_question loaded st pk :
  get_object_or_404 (QuestionViewSet_queryset loaded st) pk =
  match question_table st !! pk with
  | Some q =>
      if decide ((date_published q ≤ loaded)%Z ∧ 1 ≤ choice_count st pk)
      then inr (pk, q) else inl Http404
  | None => inl Http404
  end.
Proof.
  unfold get_object_or_404, QuestionViewSet_queryset.
  rewrite QuerySet_get_published. by repeat (case_match || case_decide).
Qed.

(** C10: the question whose publication date is in the future is outside the
    queryset of the question view set, so GET and DELETE of its detail route
    answer 404 to every authenticated requester, its author included, and
    the question stays stored. The queryset is built when the views are
    loaded, which is not after the request. *)
Theorem unpublished_question_not_found
    (loaded now : Z) (st : Store) (pk : nat) (q : Question) (u : User) (d : Data) :
  (loaded ≤ now)%Z →
  question_table st !! pk = Some q →
  (now < date_published q)%Z →
  dispatch loaded now (question_detail pk) {| method := GET; user := Some u; data := d |} st =
    ({| status_code := 404; content := Error Http404 |}, st) ∧
  dispatch loaded now (question_detail pk) {| method := DELETE; user := Some u; data := d |} st =
    ({| status_code := 404; content := Error Http404 |}, st).
Proof.
  intros Hclock Hq Hfuture.
  unfold dispatch, view, bind, check_permissions; simpl.
  unfold QuestionViewSet_retrieve, QuestionViewSet_destroy, bind, lift, get_object.
  rewrite get_object_or_404_question, Hq.
  case_decide; [lia|done].
Qed.

(** ** Votes: creation, reading and the policy *)

Lemma validate_attrs now question_pk request attrs st attrs' :
  validate now question_pk request attrs st = inr attrs' → attrs' = attrs.
Proof.
  unfold validate, and_then. repeat (case_match || case_decide); intros; by simplify_eq.
Qed.

Lemma VoteSerializer_run_validation_hide_voter now question_pk partial request st attrs :
  VoteSerializer_run_validation now question_pk partial request st = inr attrs →
  attrs_hide_voter attrs = BooleanField_get_value partial (data request).
Proof.
  unfold VoteSerializer_run_validation, and_then.
  destruct (VoteSerializer_choice_field _ _ _ _); [done|].
  intros Hv. by apply validate_attrs in Hv as ->.
Qed.

(** A vote that [VoteViewSet.create] stores is a new row, owned by the
    requester, with the visibility that the field reads from the body or
    else the default. *)
Lemma VoteViewSet_create_success now question_pk choice_pk request st response st' :
  VoteViewSet_create now question_pk choice_pk request st = (inr response, st') →
  ∃ u pk target,
    user request = Some u ∧ vote_table st !! pk = None ∧
    let instance := {| voter := u; choice := target;
                       hide_voter :=
                         default true (BooleanField_get_value false (data request)) |} in
    st' = {| question_table := question_table st;
             choice_table := choice_table st;
             vote_table := <[pk := instance]> (vote_table st);
             question_seq := question_seq st;
             choice_seq := choice_seq st;
             vote_seq := pk |} ∧
    response = {| status_code := 201; content := OneVote (serialize_vote (pk, instance)) |}.
Proof.
  unfold VoteViewSet_create, bind, lift.
  destruct (VoteSerializer_run_validation _ _ _ _ st) as [e|attrs] eqn:Hv; [done|].
  apply VoteSerializer_run_validation_hide_voter in Hv as Hhide.
  unfold VoteViewSet_perform_create, bind.
  destruct (match attrs_choice attrs with
            | Some c => ret c
            | None => lift (λ st0, QuerySet_get (map_to_list (choice_table st0)) choice_pk)
            end st) as [[e|target] st0] eqn:Ht; [done|].
  assert (st0 = st) as ->.
  { destruct (attrs_choice attrs); unfold ret, lift in Ht; by simplify_eq. }
  destruct (user request) as [u|] eqn:Hu; [|done].
  unfold Vote_create, ret. case_decide; [done|].
  intros; simplify_eq. exists u, (next_pk (vote_seq st) (vote_table st)), target.1.
  rewrite Hhide. split; [done|]. split; [apply next_pk_fresh|done].
Qed.

Lemma get_object_found {A} (permission : BasePermission A) request (l : list (nat * A)) pk a :
  NoDup l.*1 → (pk, a) ∈ l →
  get_object permission request l pk =
  if has_object_permission permission request a then inr (pk, a)
  else inl (permission_denied request).
Proof.
  intros Hnd Hin. unfold get_object, get_object_or_404.
  by rewrite (QuerySet_get_present _ _ _ Hnd Hin).
Qed.

Lemma NoDup_vote_queryset st choice_pk : NoDup (VoteViewSet_get_queryset st choice_pk).*1.
Proof. apply NoDup_fst_filter, NoDup_fst_objects_all. Qed.

Lemma length_vote_queryset st choice_pk :
  length (VoteViewSet_get_queryset st choice_pk) =
  length (filter (λ r : nat * Vote, choice r.2 = choice_pk) (map_to_list (vote_table st))).
Proof. unfold VoteViewSet_get_queryset. by rewrite objects_all_Permutation. Qed.

Lemma elem_of_vote_queryset st choice_pk pk v :
  (pk, v) ∈ VoteViewSet_get_queryset st choice_pk ↔
  vote_table st !! pk = Some v ∧ choice v = choice_pk.
Proof.
  unfold VoteViewSet_get_queryset.
  rewrite list_elem_of_filter, elem_of_objects_all; simpl; tauto.
Qed.

(** ** Object permissions *)

Lemma IsAuthorOrReadOnly_object request obj :
  has_object_permission IsAuthorOrReadOnly request obj =
  match method request with
  | GET | HEAD | OPTIONS | POST => true
  | _ => is_user (author obj) request
  end.
Proof.
  simpl. destruct (method request); case_decide as Hin; try done;
    exfalso; (apply Hin || revert Hin); unfold SAFE_METHODS; simpl; set_solver.
Qed.

Lemma is_user_Some owner u m d :
  is_user owner {| method := m; user := Some u; data := d |} =
  bool_decide (user_pk owner = user_pk u).
Proof. done. Qed.

Lemma NoDup_question_queryset loaded st : NoDup (QuestionViewSet_queryset loaded st).*1.
Proof. apply NoDup_published_pks. Qed.

(** C8: the object permission of a question lets a DELETE through exactly
    when the requester is the author and lets every safe method through; the
    object permission of a vote lets a request through exactly when the
    requester is the voter. On a question that the view finds, every
    authenticated identity reads it, the author deletes it and any other
    identity gets 403; a stored vote is updated or deleted by its voter only
    (403 for any other identity), and a vote that is created belongs to the
    requester. *)
Theorem author_and_voter_only_mutation
    (loaded now : Z) (st : Store) (u : User) (d : Data) :
  let request m := {| method := m; user := Some u; data := d |} in
  (∀ q, has_object_permission IsAuthorOrReadOnly (request DELETE) q =
        bool_decide (user_pk (author q) = user_pk u)) ∧
  (∀ q m, m ∈ SAFE_METHODS →
     has_permission IsAuthorOrReadOnly (request m) = true ∧
     has_object_permission IsAuthorOrReadOnly (request m) q = true) ∧
  (∀ v m, has_object_permission IsVoterOnly (request m) v =
          bool_decide (user_pk (voter v) = user_pk u)) ∧
  (∀ pk q, (pk, q) ∈ QuestionViewSet_queryset loaded st →
     dispatch loaded now (question_detail pk) (request GET) st =
       ({| status_code := 200; content := OneQuestion (serialize_question (pk, q)) |}, st) ∧
     dispatch loaded now (question_detail pk) (request DELETE) st =
       if decide (user_pk (author q) = user_pk u)
       then ({| status_code := 204; content := NoContent |}, (Question_delete pk st).2)
       else ({| status_code := 403; content := Error PermissionDenied |}, st)) ∧
  (∀ question_pk pk v m, vote_table st !! pk = Some v → m ∈ [PUT; PATCH; DELETE] →
     user_pk (voter v) ≠ user_pk u →
     dispatch loaded now (question_choice_vote_detail question_pk (choice v) pk) (request m) st =
       ({| status_code := 403; content := Error PermissionDenied |}, st)) ∧
  (∀ question_pk pk v, vote_table st !! pk = Some v →
     user_pk (voter v) = user_pk u →
     dispatch loaded now (question_choice_vote_detail question_pk (choice v) pk)
       (request DELETE) st =
       ({| status_code := 204; content := NoContent |}, (Vote_delete pk st).2)) ∧
  (∀ question_pk choice_pk response st',
     dispatch loaded now (question_choice_vote_list question_pk choice_pk) (request POST) st =
       (response, st') →
     status_code response = 201 →
     ∃ pk v, vote_table st !! pk = None ∧
             vote_table st' = <[pk := v]> (vote_table st) ∧ voter v = u).
Proof.
  intros request; unfold request; clear request. repeat apply conj.
  - intros q. by rewrite IsAuthorOrReadOnly_object.
  - intros q m Hm. split; [done|]. rewrite IsAuthorOrReadOnly_object.
    unfold SAFE_METHODS in Hm. simpl.
    repeat (apply elem_of_cons in Hm as [->|Hm]; [done|]). by apply elem_of_nil in Hm.
  - done.
  - intros pk q Hin. split.
    + unfold dispatch, view, bind, check_permissions; simpl.
      unfold QuestionViewSet_retrieve, bind, lift.
      rewrite (get_object_found _ _ _ pk q (NoDup_question_queryset _ _) Hin).
      by rewrite IsAuthorOrReadOnly_object.
    + unfold dispatch, view, bind, check_permissions; simpl.
      unfold QuestionViewSet_destroy, bind, lift.
      rewrite (get_object_found _ _ _ pk q (NoDup_question_queryset _ _) Hin).
      rewrite IsAuthorOrReadOnly_object. unfold is_user, User_eqb; simpl.
      case_decide; [by rewrite bool_decide_eq_true_2|by rewrite bool_decide_eq_false_2].
  - intros question_pk pk v m Hv Hm Hne.
    assert ((pk, v) ∈ VoteViewSet_get_queryset st (choice v)) as Hin
      by by apply elem_of_vote_queryset.
    repeat (apply elem_of_cons in Hm as [->|Hm]); [| | |by apply elem_of_nil in Hm];
      unfold dispatch, view, bind, check_permissions; simpl;
      unfold VoteViewSet_update, VoteViewSet_destroy, bind, lift;
      rewrite (get_object_found _ _ _ pk v (NoDup_vote_queryset _ _) Hin);
      simpl; rewrite is_user_Some; by rewrite bool_decide_eq_false_2.
  - intros question_pk pk v Hv Heq.
    assert ((pk, v) ∈ VoteViewSet_get_queryset st (choice v)) as Hin
      by by apply elem_of_vote_queryset.
    unfold dispatch, view, bind, check_permissions; simpl.
    unfold VoteViewSet_destroy, bind, lift.
    rewrite (get_object_found _ _ _ pk v (NoDup_vote_queryset _ _) Hin).
    simpl. rewrite is_user_Some. by rewrite bool_decide_eq_true_2.
  - intros question_pk choice_pk response st' Hpost Hstatus.
    unfold dispatch, view, bind, check_permissions in Hpost; simpl in Hpost.
    destruct (VoteViewSet_create _ _ _ _ st) as [[e|r] st0] eqn:Hc.
    + simplify_eq; simpl in Hstatus. by destruct e.
    + simplify_eq.
      apply VoteViewSet_create_success in Hc as (u' & pk & target & Hu & Hnew & -> & _).
      simpl in Hu; simplify_eq. eexists pk, _. by repeat split.
Qed.

(** ** Validation of a vote *)

Lemma elem_of_Question_choices st question_pk pk c :
  (pk, c) ∈ Question_choices st question_pk ↔
  choice_table st !! pk = Some c ∧ question c = question_pk.
Proof.
  unfold Question_choices.
  rewrite list_elem_of_filter, elem_of_map_to_list; simpl; tauto.
Qed.

Lemma elem_of_Question_choices_pk st question_pk pk :
  pk ∈ (Question_choices st question_pk).*1 ↔
  ∃ c, choice_table st !! pk = Some c ∧ question c = question_pk.
Proof.
  rewrite list_elem_of_fmap. split.
  - intros ([pk' c] & -> & Hin). apply elem_of_Question_choices in Hin. eauto.
  - intros (c & Hc & Hq). exists (pk, c). split; [done|].
    by apply elem_of_Question_choices.
Qed.

Lemma holds_vote_choice_count st u question_pk :
  holds_vote st u question_pk → 1 ≤ choice_count st question_pk.
Proof.
  intros (pk & v & c & _ & _ & Hc & Hq).
  assert ((choice v, c) ∈ Question_choices st question_pk) as Hin
    by by apply elem_of_Question_choices.
  unfold choice_count. destruct (Question_choices st question_pk); simpl; [|lia].
  by apply elem_of_nil in Hin.
Qed.


Lemma QuerySet_get_is_published now st question_pk :
  is_published now st question_pk →
  ∃ q, QuerySet_get (PublishedQuestionManager_get_queryset now st) question_pk =
       inr (question_pk, q).
Proof.
  intros (q & Hq & Hd & Hc). exists q.
  rewrite QuerySet_get_published, Hq. by rewrite decide_True.
Qed.

(** The outcome of [validate_choice] for a choice of another question: the
    failed lookup of the question of the path, or else the validation
    error. *)
Lemma validate_choice_other_question now st question_pk target c :
  choice_table st !! target = Some c → question c ≠ question_pk →
  validate_choice now question_pk (target, c) st =
  match QuerySet_get (PublishedQuestionManager_get_queryset now st) question_pk with
  | inl e => inl e
  | inr _ => inl (ValidationError "Is not accepted by this question.")
  end.
Proof.
  intros Hc Hq. unfold validate_choice, and_then.
  rewrite QuerySet_get_published.
  destruct (question_table st !! question_pk); [case_decide|]; try done.
  simpl. rewrite decide_False; [done|].
  rewrite elem_of_Question_choices_pk. intros (c' & Hc' & ?). congruence.
Qed.

Lemma validate_choice_error now st question_pk r e :
  validate_choice now question_pk r st = inl e →
  e = DoesNotExist ∨ ∃ detail, e = ValidationError detail.
Proof.
  unfold validate_choice, and_then. rewrite QuerySet_get_published.
  repeat (case_match || case_decide); intros; simplify_eq; eauto.
Qed.

Lemma VoteSerializer_choice_field_error now st question_pk request e :
  VoteSerializer_choice_field now question_pk request st = inl e →
  e = DoesNotExist ∨ ∃ detail, e = ValidationError detail.
Proof.
  unfold VoteSerializer_choice_field, and_then. rewrite ?QuerySet_get_table.
  destruct (data_choice (data request)) as [target|]; [|done].
  rewrite QuerySet_get_table. destruct (choice_table st !! target); [|intros; simplify_eq; eauto].
  destruct (validate_choice _ _ _ _) eqn:Hv; [|done].
  intros; simplify_eq. by eapply validate_choice_error.
Qed.


Lemma validate_published now st question_pk request attrs :
  is_published now st question_pk →
  validate now question_pk request attrs st =
  if decide (method request = POST ∧
             (if user request is Some u
              then filter_vote_voter st (Question_choices st question_pk) (user_pk u)
              else []) ≠ [])
  then inl (ValidationError "Multiple voting detected.")
  else inr attrs.
Proof.
  intros [q Hq]%QuerySet_get_is_published. unfold validate, and_then. by rewrite Hq.
Qed.

(** ** One vote per question *)


(** ** The choice of a vote and the question of the path *)

Lemma VoteSerializer_choice_field_other_question now st question_pk request target c :
  data_choice (data request) = Some target →
  choice_table st !! target = Some c → question c ≠ question_pk →
  VoteSerializer_choice_field now question_pk request st =
  match QuerySet_get (PublishedQuestionManager_get_queryset now st) question_pk with
  | inl e => inl e
  | inr _ => inl (ValidationError "Is not accepted by this question.")
  end.
Proof.
  intros Hd Hc Hq. unfold VoteSerializer_choice_field, and_then.
  rewrite Hd, QuerySet_get_table, Hc, validate_choice_other_question by done.
  by destruct (QuerySet_get _ _).
Qed.


(** C5, amended: under a question that is published, a vote whose [choice]
    field names a choice of another question is refused by the validation,
    with status 400 and no write, on creation and, once the vote of the
    path is found and the requester is its voter, on update. *)
Theorem cross_question_choice_is_validation_failure
    (loaded now : Z) (st : Store) (question_pk choice_pk : nat) (u : User) (d : Data)
    (target : nat) (c : Choice) :
  is_published now st question_pk →
  data_choice d = Some target →
  choice_table st !! target = Some c →
  question c ≠ question_pk →
  let request m := {| method := m; user := Some u; data := d |} in
  let refused :=
    ({| status_code := 400;
        content := Error (ValidationError "Is not accepted by this question.") |}, st) in
  dispatch loaded now (question_choice_vote_list question_pk choice_pk) (request POST) st =
    refused ∧
  (∀ m pk v, m ∈ [PUT; PATCH] →
     vote_table st !! pk = Some v → choice v = choice_pk →
     user_pk (voter v) = user_pk u →
     dispatch loaded now (question_choice_vote_detail question_pk choice_pk pk) (request m) st =
       refused).
Proof.
  intros Hpub Hd Hc Hq request refused; unfold request, refused; clear request refused.
  destruct (QuerySet_get_is_published _ _ _ Hpub) as [q Hget].
  split.
  - unfold dispatch, view, bind, check_permissions; simpl.
    unfold VoteViewSet_create, bind, lift, VoteSerializer_run_validation, and_then.
    rewrite (VoteSerializer_choice_field_other_question _ _ _ _ target c) by done.
    by rewrite Hget.
  - intros m pk v Hm Hv Hchoice Hu.
    assert ((pk, v) ∈ VoteViewSet_get_queryset st choice_pk) as Hin
      by by apply elem_of_vote_queryset.
    repeat (apply elem_of_cons in Hm as [->|Hm]); [| |by apply elem_of_nil in Hm];
      unfold dispatch, view, bind, check_permissions; simpl;
      unfold VoteViewSet_update, bind, lift;
      rewrite (get_object_found _ _ _ pk v (NoDup_vote_queryset _ _) Hin); simpl;
      rewrite is_user_Some, bool_decide_eq_true_2 by done;
      unfold VoteSerializer_run_validation, and_then;
      rewrite (VoteSerializer_choice_field_other_question _ _ _ _ target c) by done;
      by rewrite Hget.
Qed.

(** ** Rejected updates *)


(** * Further properties of the application *)

Lemma Vote_create_failure v st e st' : Vote_create v st = (inl e, st') → st' = st.
Proof. unfold Vote_create. case_decide; intros; by simplify_eq. Qed.

Lemma Vote_save_failure pk v st e st' : Vote_save pk v st = (inl e, st') → st' = st.
Proof. unfold Vote_save. case_decide; intros; by simplify_eq. Qed.

Lemma VoteViewSet_perform_create_failure choice_pk request attrs st e st' :
  VoteViewSet_perform_create choice_pk request attrs st = (inl e, st') → st' = st.
Proof.
  unfold VoteViewSet_perform_create, bind, lift, ret, raise.
  destruct (attrs_choice attrs); destruct (user request); simpl;
    repeat case_match; intros; simplify_eq; eauto using Vote_create_failure.
Qed.

Lemma QuestionViewSet_perform_create_failure now request data st e st' :
  QuestionViewSet_perform_create now request data st = (inl e, st') → st' = st.
Proof.
  unfold QuestionViewSet_perform_create, raise. destruct (user request); intros;
    simplify_eq; eauto using QuestionManager_create_failure.
Qed.

Ltac run_handler :=
  unfold QuestionViewSet_list, QuestionViewSet_create, QuestionViewSet_retrieve,
    QuestionViewSet_destroy, ChoiceViewSet_list, ChoiceViewSet_retrieve,
    VoteViewSet_list, VoteViewSet_create, VoteViewSet_retrieve, VoteViewSet_update,
    VoteViewSet_destroy, options, Vote_delete, Question_delete,
    check_permissions, bind, lift, ret, raise;
  intros; repeat case_match; simplify_eq.

Lemma view_failure loaded now route request st e st' :
  view loaded now route request st = (inl e, st') → st' = st.
Proof.
  unfold view. destruct route; run_handler;
    eauto using QuestionViewSet_perform_create_failure,
      VoteViewSet_perform_create_failure, Vote_save_failure.
Qed.

Lemma view_success_status loaded now route request st response st' :
  view loaded now route request st = (inr response, st') →
  status_code response ∈ [200; 201; 204].
Proof.
  unfold view. destruct route; run_handler; simpl; set_solver.
Qed.

(** X1: a request that is answered with an error status (400 or above)
    leaves the store as it was, on every route and for every method. *)
Theorem failed_request_writes_nothing
    (loaded now : Z) (route : Route) (request : Request) (st : Store) :
  400 ≤ status_code (dispatch loaded now route request st).1 →
  (dispatch loaded now route request st).2 = st.
Proof.
  unfold dispatch.
  destruct (view loaded now route request st) as [[e|response] st'] eqn:Hview; simpl.
  - intros _. by eapply view_failure.
  - intros Hstatus. apply view_success_status in Hview.
    repeat (apply elem_of_cons in Hview as [Hview|Hview]; [lia|]).
    by apply elem_of_nil in Hview.
Qed.

(** X2: a GET, HEAD or OPTIONS request never writes, on any route. *)
Theorem safe_method_writes_nothing
    (loaded now : Z) (route : Route) (request : Request) (st : Store) :
  method request ∈ SAFE_METHODS →
  (dispatch loaded now route request st).2 = st.
Proof.
  intros Hm. unfold dispatch.
  destruct (view loaded now route request st) as [[e|response] st'] eqn:Hview; simpl.
  - by eapply view_failure.
  - revert Hview. unfold SAFE_METHODS in Hm.
    repeat (apply elem_of_cons in Hm as [Hm|Hm]); [| | |by apply elem_of_nil in Hm];
      unfold view; destruct route; rewrite Hm; run_handler; done.
Qed.

(** X3: an authenticated request with a method that the view set of the
    route has no handler for is answered with 405 and writes nothing:
    PUT, PATCH, DELETE on the question list, POST, PUT, PATCH on a question,
    every unsafe method on the choices, PUT, PATCH, DELETE on the vote list
    and POST on a vote. *)
Theorem unsupported_method_not_allowed
    (loaded now : Z) (st : Store) (u : User) (d : Data) (m : Method) :
  let request := {| method := m; user := Some u; data := d |} in
  let refused := ({| status_code := 405; content := Error MethodNotAllowed |}, st) in
  (m ∈ [PUT; PATCH; DELETE] → dispatch loaded now question_list request st = refused) ∧
  (m ∈ [POST; PUT; PATCH] → ∀ pk, dispatch loaded now (question_detail pk) request st = refused) ∧
  (m ∈ [POST; PUT; PATCH; DELETE] → ∀ question_pk,
     dispatch loaded now (question_choice_list question_pk) request st = refused) ∧
  (m ∈ [POST; PUT; PATCH; DELETE] → ∀ question_pk pk,
     dispatch loaded now (question_choice_detail question_pk pk) request st = refused) ∧
  (m ∈ [PUT; PATCH; DELETE] → ∀ question_pk choice_pk,
     dispatch loaded now (question_choice_vote_list question_pk choice_pk) request st = refused) ∧
  (m = POST → ∀ question_pk choice_pk pk,
     dispatch loaded now (question_choice_vote_detail question_pk choice_pk pk) request st =
     refused).
Proof.
  intros request refused; unfold request, refused; clear request refused.
  repeat apply conj; intros Hm; intros;
    repeat (apply elem_of_cons in Hm as [Hm|Hm]); try (by apply elem_of_nil in Hm);
    by rewrite Hm.
Qed.

(** Choices *)

Lemma NoDup_choice_queryset st question_pk :
  NoDup (ChoiceViewSet_get_queryset st question_pk).*1.
Proof.
  apply NoDup_fst_filter. unfold with_vote_count.
  assert (∀ (g : nat * Choice → nat) (l : list (nat * Choice)),
            ((λ c, (c.1, (c.2, g c))) <$> l).*1 = l.*1) as ->.
  { intros g l. induction l as [|x l IH]; [done|]. rewrite !fmap_cons, IH. done. }
  apply NoDup_fst_objects_all.
Qed.

Lemma elem_of_choice_queryset st question_pk pk c n :
  (pk, (c, n)) ∈ ChoiceViewSet_get_queryset st question_pk ↔
  choice_table st !! pk = Some c ∧ question c = question_pk ∧
  n = length (VoteViewSet_get_queryset st pk).
Proof.
  unfold ChoiceViewSet_get_queryset, with_vote_count, VoteViewSet_get_queryset.
  rewrite list_elem_of_filter, list_elem_of_fmap; simpl. split.
  - intros (Hq & [k c'] & Heq & Hin); simpl in *; simplify_eq.
    by apply elem_of_objects_all in Hin.
  - intros (Hc & Hq & ->). split; [done|]. exists (pk, c). split; [done|].
    by apply elem_of_objects_all.
Qed.

(** Pages *)

Lemma paginate_elem_of {A} (queryset : list A) x :
  x ∈ (paginate queryset).2 → x ∈ queryset.
Proof.
  unfold paginate; simpl. intros (i & Hi & _)%elem_of_take.
  by eapply list_elem_of_lookup_2.
Qed.

Lemma paginate_length {A} (queryset : list A) :
  length (paginate queryset).2 = Pos.to_nat PAGE_SIZE `min` length queryset.
Proof. apply length_take. Qed.

Lemma paginate_all {A} (queryset : list A) :
  length queryset ≤ Pos.to_nat PAGE_SIZE → (paginate queryset).2 = queryset.
Proof. apply take_ge. Qed.

Lemma paginate_NoDup {A} (queryset : list (nat * A)) :
  NoDup queryset.*1 → NoDup (paginate queryset).2.*1.
Proof.
  unfold paginate; simpl. rewrite fmap_take. intros Hnd.
  eapply sublist_NoDup; [done|apply sublist_take].
Qed.

Lemma serialize_choice_ids (l : list (nat * (Choice * nat))) :
  choice_id <$> (serialize_choice <$> l) = l.*1.
Proof. induction l as [|x l IH]; [done|]. by rewrite !fmap_cons, IH. Qed.

Lemma serialize_vote_ids (l : list (nat * Vote)) : vote_id <$> (serialize_vote <$> l) = l.*1.
Proof. induction l as [|x l IH]; [done|]. by rewrite !fmap_cons, IH. Qed.

Lemma serialize_question_ids (l : list (nat * Question)) :
  question_id <$> (serialize_question <$> l) = l.*1.
Proof. induction l as [|x l IH]; [done|]. by rewrite !fmap_cons, IH. Qed.

Lemma length_choice_queryset st question_pk :
  length (ChoiceViewSet_get_queryset st question_pk) = choice_count st question_pk.
Proof.
  unfold ChoiceViewSet_get_queryset, with_vote_count, choice_count, Question_choices.
  rewrite <- (objects_all_Permutation (choice_table st)).
  induction (objects_all (choice_table st)) as [|x l IH]; [done|].
  rewrite fmap_cons, !filter_cons; simpl. case_decide; simpl; by rewrite IH.
Qed.

(** X4: the choices of a question are served from [Choice.objects], with
    no look at the published queryset, whether the question of the path is
    published, stored or not. The list answers 200 with the number of the
    stored choices of that question and a page of them, each with the number
    of its votes; the page holds all of them when they are not more than a
    page. The detail of a choice answers 200 when the choice is stored and
    belongs to the question of the path, and 404 otherwise. *)
Theorem choices_served_without_publication_gate
    (loaded now : Z) (st : Store) (question_pk pk : nat) (u : User) (d : Data) :
  key_in_range question_pk → key_in_range pk →
  let request := {| method := GET; user := Some u; data := d |} in
  let not_found := ({| status_code := 404; content := Error Http404 |}, st) in
  let stored (row : ChoiceRepr) :=
    ∃ c, choice_table st !! choice_id row = Some c ∧ question c = question_pk ∧
         choice_text_repr row = choice_text c ∧
         vote_count row = length (VoteViewSet_get_queryset st (choice_id row)) in
  (∃ results,
     dispatch loaded now (question_choice_list question_pk) request st =
       ({| status_code := 200;
           content := Choices (choice_count st question_pk) results |}, st) ∧
     length results = Pos.to_nat PAGE_SIZE `min` choice_count st question_pk ∧
     NoDup (choice_id <$> results) ∧
     (∀ row, row ∈ results → stored row) ∧
     (choice_count st question_pk ≤ Pos.to_nat PAGE_SIZE →
      ∀ row, stored row → row ∈ results)) ∧
  dispatch loaded now (question_choice_detail question_pk pk) request st =
    match choice_table st !! pk with
    | Some c =>
        if decide (question c = question_pk)
        then ({| status_code := 200;
                 content := OneChoice
                   {| choice_id := pk; choice_text_repr := choice_text c;
                      vote_count := length (VoteViewSet_get_queryset st pk) |} |}, st)
        else not_found
    | None => not_found
    end.
Proof.
  intros _ _ request not_found stored; unfold request, not_found, stored;
    clear request not_found stored. split.
  - exists (serialize_choice <$> (paginate (ChoiceViewSet_get_queryset st question_pk)).2).
    split; [|split; [|split; [|split]]].
    + unfold dispatch, view, bind, check_permissions, ChoiceViewSet_list; simpl.
      by rewrite length_choice_queryset.
    + by rewrite length_fmap, paginate_length, length_choice_queryset.
    + rewrite serialize_choice_ids. apply paginate_NoDup, NoDup_choice_queryset.
    + intros [k t n]. rewrite list_elem_of_fmap; simpl.
      intros ([k' [c n']] & Heq & Hin%paginate_elem_of).
      apply elem_of_choice_queryset in Hin.
      unfold serialize_choice in Heq; simpl in Heq; simplify_eq. naive_solver.
    + intros Hfits [k t n] (c & Hc & Hq & Ht & Hn). simpl in Hc, Hq, Ht, Hn. subst t n.
      rewrite paginate_all by by rewrite length_choice_queryset.
      apply list_elem_of_fmap. exists (k, (c, length (VoteViewSet_get_queryset st k))).
      split; [done|]. by apply elem_of_choice_queryset.
  - unfold dispatch, view, bind, check_permissions; simpl.
    unfold ChoiceViewSet_retrieve, bind, lift.
    destruct (choice_table st !! pk) as [c|] eqn:Hc; [case_decide as Hq|].
    + rewrite (get_object_found _ _ _ pk (c, length (VoteViewSet_get_queryset st pk))
                 (NoDup_choice_queryset _ _)) by by apply elem_of_choice_queryset.
      done.
    + unfold get_object, get_object_or_404. rewrite QuerySet_get_absent; [done|].
      intros ([k [c' n]] & -> & Hin)%list_elem_of_fmap.
      apply elem_of_choice_queryset in Hin; simpl in *. naive_solver.
    + unfold get_object, get_object_or_404. rewrite QuerySet_get_absent; [done|].
      intros ([k [c' n]] & -> & Hin)%list_elem_of_fmap.
      apply elem_of_choice_queryset in Hin; simpl in *. naive_solver.
Qed.

(** Votes: detail reads *)

(** X5: the detail of a vote is read by its voter only: found under the
    choice of the path, it answers 200 to its voter and 403 to any other
    identity; under another choice, or when it is not stored, it answers
    404. The question of the path plays no part. The keys of the choice and
    of the vote are keys that the database holds. *)
Theorem vote_detail_read_by_voter_only
    (loaded now : Z) (st : Store) (question_pk choice_pk pk : nat) (u : User) (d : Data) :
  key_in_range choice_pk → key_in_range pk →
  dispatch loaded now (question_choice_vote_detail question_pk choice_pk pk)
    {| method := GET; user := Some u; data := d |} st =
  match vote_table st !! pk with
  | Some v =>
      if decide (choice v = choice_pk)
      then if decide (user_pk (voter v) = user_pk u)
           then ({| status_code := 200; content := OneVote (serialize_vote (pk, v)) |}, st)
           else ({| status_code := 403; content := Error PermissionDenied |}, st)
      else ({| status_code := 404; content := Error Http404 |}, st)
  | None => ({| status_code := 404; content := Error Http404 |}, st)
  end.
Proof.
  intros _ _. unfold dispatch, view, bind, check_permissions; simpl.
  unfold VoteViewSet_retrieve, bind, lift.
  destruct (vote_table st !! pk) as [v|] eqn:Hv; [case_decide as Hc|].
  - rewrite (get_object_found _ _ _ pk v (NoDup_vote_queryset _ _))
      by by apply elem_of_vote_queryset.
    simpl. rewrite is_user_Some. case_decide.
    + by rewrite bool_decide_eq_true_2.
    + by rewrite bool_decide_eq_false_2.
  - unfold get_object, get_object_or_404. rewrite QuerySet_get_absent; [done|].
    intros ([k v'] & -> & Hin)%list_elem_of_fmap.
    apply elem_of_vote_queryset in Hin; simpl in *. naive_solver.
  - unfold get_object, get_object_or_404. rewrite QuerySet_get_absent; [done|].
    intros ([k v'] & -> & Hin)%list_elem_of_fmap.
    apply elem_of_vote_queryset in Hin; simpl in *. naive_solver.
Qed.

(** Questions: the clock of the view *)

(** X6: the detail of a question is served against the clock read when the
    views were loaded: 200 exactly when the question is stored, has a choice
    and [date_published] is not after the load time, 404 otherwise, for a
    key that the database holds; the time of the request plays no part. *)
Theorem question_served_by_load_time_clock
    (loaded now : Z) (st : Store) (pk : nat) (u : User) (d : Data) :
  key_in_range pk →
  dispatch loaded now (question_detail pk) {| method := GET; user := Some u; data := d |} st =
  match question_table st !! pk with
  | Some q =>
      if decide ((date_published q ≤ loaded)%Z ∧ 1 ≤ choice_count st pk)
      then ({| status_code := 200; content := OneQuestion (serialize_question (pk, q)) |}, st)
      else ({| status_code := 404; content := Error Http404 |}, st)
  | None => ({| status_code := 404; content := Error Http404 |}, st)
  end.
Proof.
  intros _. unfold dispatch, view, bind, check_permissions; simpl.
  unfold QuestionViewSet_retrieve, bind, lift, get_object.
  rewrite get_object_or_404_question.
  by destruct (question_table st !! pk) as [q|]; [case_decide|].
Qed.

(** Creation of a question: the success path *)

Lemma save_choices_success question_pk texts : ∀ choices st,
  choice_texts choices = Some <$> texts →
  NoDup texts →
  (∀ k c, choice_table st !! k = Some c → question c = question_pk →
          choice_text c ∉ texts) →
  ∃ st' rows,
    save_choices question_pk choices st = (inr (), st') ∧
    question_table st' = question_table st ∧ vote_table st' = vote_table st ∧
    question_seq st' = question_seq st ∧ vote_seq st' = vote_seq st ∧
    rows.*2 = Build_Choice question_pk <$> texts ∧
    map_to_list (choice_table st') ≡ₚ rows ++ map_to_list (choice_table st).
Proof.
  induction texts as [|t texts IH]; intros choices st Htexts Hnd Hfree.
  - destruct choices; [|done]. exists st, []. by repeat split.
  - destruct choices as [|c choices]; [done|].
    unfold choice_texts in Htexts. rewrite !fmap_cons in Htexts.
    injection Htexts as Hc Hrest. apply NoDup_cons in Hnd as [Ht Hnd].
    simpl. unfold bind, Choice_save. rewrite Hc.
    rewrite decide_False.
    2:{ rewrite Exists_exists. intros ([k c'] & Hin & Hq & Htext); simpl in *.
        apply elem_of_map_to_list in Hin.
        apply (Hfree k c' Hin Hq). rewrite Htext. by left. }
    set (k1 := next_pk (choice_seq st) (choice_table st)).
    set (st1 := {| question_table := question_table st;
                   choice_table := <[k1 := Build_Choice question_pk t]> (choice_table st);
                   vote_table := vote_table st;
                   question_seq := question_seq st;
                   choice_seq := k1;
                   vote_seq := vote_seq st |}).
    destruct (IH choices st1 Hrest Hnd)
      as (st' & rows & Hsave & Hqt & Hvt & Hqs & Hvs & Hrows & Hperm).
    { intros k c' Hk Hq. simpl in Hk.
      destruct (decide (k = k1)) as [->|Hne].
      - rewrite lookup_insert_eq in Hk. injection Hk as Hk.
        rewrite <- Hk. simpl. exact Ht.
      - rewrite lookup_insert_ne in Hk by (intros ?; by apply Hne).
        intros Hin. apply (Hfree k c' Hk Hq). by right. }
    exists st', ((k1, Build_Choice question_pk t) :: rows).
    split; [done|]. split; [done|]. split; [done|]. split; [done|]. split; [done|].
    split; [by rewrite !fmap_cons, Hrows|].
    rewrite Hperm. simpl.
    rewrite (map_to_list_insert (choice_table st) k1) by apply next_pk_fresh.
    by rewrite Permutation_middle.
Qed.

Lemma choice_count_zero st question_pk :
  choice_count st question_pk = 0 ↔
  ∀ k c, choice_table st !! k = Some c → question c ≠ question_pk.
Proof.
  unfold choice_count. split.
  - intros Hlen k c Hk Hq.
    assert ((k, c) ∈ Question_choices st question_pk) as Hin
      by by apply elem_of_Question_choices.
    destruct (Question_choices st question_pk); [by apply elem_of_nil in Hin|done].
  - intros Hnone. destruct (Question_choices st question_pk) as [|[k c] l] eqn:Hl; [done|].
    assert ((k, c) ∈ Question_choices st question_pk) as Hin by (rewrite Hl; by left).
    apply elem_of_Question_choices in Hin as [Hk Hq]. by destruct (Hnone k c Hk).
Qed.

Lemma filter_all {A} (P : A → Prop) `{∀ x, Decision (P x)} (l : list A) :
  Forall P l → filter P l = l.
Proof.
  induction 1 as [|x l Hx Hl IH]; [done|].
  rewrite filter_cons, decide_True by done. by rewrite IH.
Qed.

Lemma filter_none {A} (P : A → Prop) `{∀ x, Decision (P x)} (l : list A) :
  Forall (λ x, ¬ P x) l → filter P l = [].
Proof.
  induction 1 as [|x l Hx Hl IH]; [done|].
  by rewrite filter_cons, decide_False.
Qed.

Lemma QuestionManager_create_success
    (now : Z) (a : User) (text : string) (date : Z)
    (choices : list (gmap string string)) (texts : list string) (st : Store) :
  (∀ k q, question_table st !! k = Some q → question_text q ≠ text) →
  choice_texts choices = Some <$> texts →
  NoDup texts →
  choice_count st (next_pk (question_seq st) (question_table st)) = 0 →
  let pk := next_pk (question_seq st) (question_table st) in
  let q := Build_Question a text date now in
  ∃ st' rows,
    QuestionManager_create now a text date choices st = (inr (pk, q), st') ∧
    question_table st !! pk = None ∧ question_seq st < pk ∧
    question_table st' = <[pk := q]> (question_table st) ∧
    question_seq st' = pk ∧
    vote_table st' = vote_table st ∧
    rows.*2 = Build_Choice pk <$> texts ∧
    map_to_list (choice_table st') ≡ₚ rows ++ map_to_list (choice_table st) ∧
    choice_count st' pk = length choices.
Proof.
  intros Hfresh Htexts Hnd Hcount pk q.
  pose proof (proj1 (choice_count_zero _ _) Hcount) as Hnone.
  unfold QuestionManager_create, atomic, QuestionManager_create_body, bind, Question_save.
  rewrite decide_False.
  2:{ rewrite Exists_exists. intros ([k q'] & Hin & Htext); simpl in *.
      apply elem_of_map_to_list in Hin. by apply (Hfresh k q'). }
  fold pk. fold q.
  set (st1 := {| question_table := <[pk := q]> (question_table st);
                 choice_table := choice_table st;
                 vote_table := vote_table st;
                 question_seq := pk;
                 choice_seq := choice_seq st;
                 vote_seq := vote_seq st |}).
  destruct (save_choices_success pk texts choices st1 Htexts Hnd)
    as (st' & rows & Hsave & Hqt & Hvt & Hqs & Hvs & Hrows & Hperm).
  { intros k c Hk Hq. by destruct (Hnone k c Hk). }
  exists st', rows. rewrite Hsave. simpl in *.
  split; [done|]. split; [apply next_pk_fresh|]. split; [apply next_pk_above_seq|].
  split; [done|]. split; [done|]. split; [done|]. split; [done|]. split; [done|].
  unfold choice_count, Question_choices. rewrite Hperm, filter_app, length_app.
  rewrite (filter_all _ rows), (filter_none _ (map_to_list (choice_table st))).
  - rewrite <- (length_fmap snd rows), Hrows, length_fmap.
    rewrite <- (length_fmap (λ choice : gmap string string, choice !! "choice_text") choices).
    fold (choice_texts choices). rewrite Htexts, length_fmap. simpl. lia.
  - apply Forall_forall. intros [k c] Hin Hq. apply elem_of_map_to_list in Hin.
    by destruct (Hnone k c Hin).
  - apply Forall_forall. intros [k c] Hin; simpl.
    assert (c ∈ rows.*2) as Hc by (apply list_elem_of_fmap; by exists (k, c)).
    rewrite Hrows in Hc. apply list_elem_of_fmap in Hc as (t & -> & _). done.
Qed.

(** X8: when the text of the question is not taken, every choice of the
    payload has a text, the texts are pairwise distinct and no stored choice
    refers to the key the question gets, [QuestionManager.create] returns
    the question, stores it under a key that the table has never given to a
    row, adds exactly one choice row per choice of the payload, each
    referring to the question, and leaves the votes as they were. *)
Theorem QuestionManager_create_persists_all
    (now : Z) (a : User) (text : string) (date : Z)
    (choices : list (gmap string string)) (texts : list string) (st : Store) :
  (∀ k q, question_table st !! k = Some q → question_text q ≠ text) →
  choice_texts choices = Some <$> texts →
  NoDup texts →
  choice_count st (next_pk (question_seq st) (question_table st)) = 0 →
  let pk := next_pk (question_seq st) (question_table st) in
  let q := Build_Question a text date now in
  ∃ st' rows,
    QuestionManager_create now a text date choices st = (inr (pk, q), st') ∧
    question_table st !! pk = None ∧ question_seq st < pk ∧
    question_table st' = <[pk := q]> (question_table st) ∧
    question_seq st' = pk ∧
    vote_table st' = vote_table st ∧
    rows.*2 = Build_Choice pk <$> texts ∧
    map_to_list (choice_table st') ≡ₚ rows ++ map_to_list (choice_table st) ∧
    choice_count st' pk = length choices.
Proof. apply QuestionManager_create_success. Qed.

(** The POST of a valid question *)

Lemma choice_texts_choice_data texts : choice_texts (choice_data <$> texts) = Some <$> texts.
Proof.
  unfold choice_texts, choice_data. induction texts as [|t texts IH]; [done|].
  rewrite !fmap_cons, IH. by rewrite lookup_singleton_eq.
Qed.

Lemma QuestionSerializer_run_validation_success request st text date choices texts :
  data_question_text (data request) = Some text →
  data_date_published (data request) = Some date →
  data_choices (data request) = Some choices →
  valid_text 200 (strip text) →
  (∀ k q, question_table st !! k = Some q → question_text q ≠ strip text) →
  choice_texts choices = Some <$> texts →
  Forall (λ t, valid_text 200 (strip t)) texts →
  2 ≤ length texts ≤ 20 → NoDup (strip <$> texts) →
  QuestionSerializer_run_validation request st =
  inr (strip text, date, choice_data <$> (strip <$> texts)).
Proof.
  intros Ht Hd Hc Hvalid Hfresh Htexts Hvalids Hcount Hnd.
  unfold QuestionSerializer_run_validation, required, UniqueValidator, and_then.
  rewrite Ht, Hd, Hc.
  assert (CharField 200 text = inr (strip text)) as -> by by apply CharField_inr.
  rewrite decide_False.
  2:{ rewrite Exists_exists. intros ([k q] & Hin & Htext); simpl in *.
      apply elem_of_map_to_list in Hin. by apply (Hfresh k q). }
  rewrite (ChoiceSerializer_many_success _ _ Htexts Hvalids), list_fmap_compose.
  assert (validate_choices (choice_data <$> (strip <$> texts)) =
          inr (choice_data <$> (strip <$> texts))) as ->; [|done].
  apply validate_choices_ok. rewrite !length_fmap, choice_texts_choice_data.
  split; [done|]. apply NoDup_fmap; [|done]. by intros ?? [=].
Qed.

Lemma QuestionViewSet_retrieve_result loaded now st pk u d :
  dispatch loaded now (question_detail pk) {| method := GET; user := Some u; data := d |} st =
  match question_table st !! pk with
  | Some q =>
      if decide ((date_published q ≤ loaded)%Z ∧ 1 ≤ choice_count st pk)
      then ({| status_code := 200; content := OneQuestion (serialize_question (pk, q)) |}, st)
      else ({| status_code := 404; content := Error Http404 |}, st)
  | None => ({| status_code := 404; content := Error Http404 |}, st)
  end.
Proof.
  unfold dispatch, view, bind, check_permissions; simpl.
  unfold QuestionViewSet_retrieve, bind, lift, get_object.
  rewrite get_object_or_404_question.
  by destruct (question_table st !! pk) as [q|]; [case_decide|].
Qed.

(** X9: the POST of a valid question answers 201 with the question, whose
    text is the text of the body stripped of the white space at its ends,
    whose author is the requester and whose creation date is the time of the
    request. The question is valid when its stripped text is not blank, not
    longer than 200, without a null character and not taken, it has a
    publication date, and 2 to 20 choices whose stripped texts are valid in
    the same way and pairwise distinct. The question is stored under a key
    that the table has never given to a row, with one choice per choice of
    the payload, which holds the stripped text; its detail then answers 200
    exactly when its publication date is not after the time the views were
    loaded. *)
Theorem valid_question_is_created
    (loaded now : Z) (st : Store) (u reader : User) (d : Data) (text : string) (date : Z)
    (choices : list (gmap string string)) (texts : list string) :
  data_question_text d = Some text →
  data_date_published d = Some date →
  data_choices d = Some choices →
  valid_text 200 (strip text) →
  (∀ k q, question_table st !! k = Some q → question_text q ≠ strip text) →
  choice_texts choices = Some <$> texts →
  Forall (λ t, valid_text 200 (strip t)) texts →
  2 ≤ length texts ≤ 20 → NoDup (strip <$> texts) →
  choice_count st (next_pk (question_seq st) (question_table st)) = 0 →
  let pk := next_pk (question_seq st) (question_table st) in
  let q := Build_Question u (strip text) date now in
  ∃ st' rows,
    dispatch loaded now question_list {| method := POST; user := Some u; data := d |} st =
      ({| status_code := 201; content := OneQuestion (serialize_question (pk, q)) |}, st') ∧
    question_table st !! pk = None ∧ question_seq st < pk ∧
    question_table st' = <[pk := q]> (question_table st) ∧
    vote_table st' = vote_table st ∧
    rows.*2 = Build_Choice pk <$> (strip <$> texts) ∧
    map_to_list (choice_table st') ≡ₚ rows ++ map_to_list (choice_table st) ∧
    choice_count st' pk = length texts ∧
    dispatch loaded now (question_detail pk)
      {| method := GET; user := Some reader; data := no_data |} st' =
      if decide (date ≤ loaded)%Z
      then ({| status_code := 200; content := OneQuestion (serialize_question (pk, q)) |}, st')
      else ({| status_code := 404; content := Error Http404 |}, st').
Proof.
  intros Ht Hd Hc Hvalid Hfresh Htexts Hvalids Hcount Hnd Hzero pk q.
  destruct (QuestionManager_create_success now u (strip text) date
              (choice_data <$> (strip <$> texts)) (strip <$> texts) st
              Hfresh (choice_texts_choice_data _) Hnd Hzero)
    as (st' & rows & Hcreate & Hnew & Hseq & Hqt & _ & Hvt & Hrows & Hperm & Hchoices).
  fold pk q in Hcreate, Hnew, Hseq, Hqt, Hrows, Hchoices. rewrite !length_fmap in Hchoices.
  exists st', rows.
  split; [|split; [done|split; [done|split; [done|split; [done|split;
    [done|split; [done|split; [done|]]]]]]]].
  - unfold dispatch, view, bind, check_permissions; simpl.
    unfold QuestionViewSet_create, bind, lift.
    rewrite (QuestionSerializer_run_validation_success _ st text date choices texts)
      by done.
    unfold QuestionViewSet_perform_create; simpl. by rewrite Hcreate.
  - rewrite QuestionViewSet_retrieve_result, Hqt, lookup_insert_eq. simpl.
    rewrite Hchoices. repeat case_decide; done || lia.
Qed.

(** A taken question text *)

Lemma QuestionSerializer_run_validation_unique request st text date choices :
  QuestionSerializer_run_validation request st = inr (text, date, choices) →
  (∃ raw, data_question_text (data request) = Some raw ∧ text = strip raw) ∧
  ∀ k q, question_table st !! k = Some q → question_text q ≠ text.
Proof.
  unfold QuestionSerializer_run_validation, required, UniqueValidator, and_then.
  destruct (data_question_text (data request)) as [raw|]; [|done].
  destruct (CharField 200 raw) as [e|value] eqn:Hfield; [done|].
  apply CharField_inr in Hfield as [-> _].
  repeat (case_match || case_decide); intros; simplify_eq.
  split; [by eexists|]. intros k q Hk Htext.
  match goal with H : ¬ Exists _ _ |- _ => apply H end.
  apply Exists_exists. exists (k, q). split; [by apply elem_of_map_to_list|done].
Qed.

(** X10: the POST of a question whose text, stripped of the white space at
    its ends, is the text of a stored question is answered with 400 and
    writes nothing. *)
Theorem duplicate_question_text_rejected
    (loaded now : Z) (st : Store) (u : User) (d : Data) (k : nat) (q : Question)
    (text : string) :
  question_table st !! k = Some q →
  data_question_text d = Some text →
  strip text = question_text q →
  ∃ detail,
    dispatch loaded now question_list {| method := POST; user := Some u; data := d |} st =
    ({| status_code := 400; content := Error (ValidationError detail) |}, st).
Proof.
  intros Hk Hd Hstrip. unfold dispatch, view, bind, check_permissions; simpl.
  unfold QuestionViewSet_create, bind, lift.
  destruct (QuestionSerializer_run_validation _ st) as [e|[[text' date] choices]] eqn:Hv.
  - apply QuestionSerializer_run_validation_error in Hv as [detail ->]. eauto.
  - apply QuestionSerializer_run_validation_unique in Hv as [(raw & Hraw & ->) Hfresh].
    simpl in Hraw. rewrite Hd in Hraw. simplify_eq. by destruct (Hfresh k q).
Qed.

(** Deletion of a question *)

Lemma Question_delete_tables pk st :
  question_table (Question_delete pk st).2 = delete pk (question_table st) ∧
  (∀ k c, choice_table (Question_delete pk st).2 !! k = Some c ↔
          choice_table st !! k = Some c ∧ question c ≠ pk) ∧
  (∀ k v, vote_table (Question_delete pk st).2 !! k = Some v ↔
          vote_table st !! k = Some v ∧
          ¬ ∃ c, choice_table st !! choice v = Some c ∧ question c = pk).
Proof.
  unfold Question_delete; simpl. split; [done|]. split.
  - intros k c. by rewrite map_lookup_filter_Some.
  - intros k v. rewrite map_lookup_filter_Some; simpl.
    destruct (choice_table st !! choice v) as [c|]; simpl; naive_solver.
Qed.

(** X11: the DELETE of a question by its author answers 204 and removes
    the question, exactly the choices that refer to it, and exactly the
    votes for those choices; the other rows stay. *)
Theorem question_delete_cascades
    (loaded now : Z) (st : Store) (pk : nat) (q : Question) (u : User) (d : Data) :
  question_table st !! pk = Some q →
  (date_published q ≤ loaded)%Z → 1 ≤ choice_count st pk →
  user_pk (author q) = user_pk u →
  ∃ st',
    dispatch loaded now (question_detail pk)
      {| method := DELETE; user := Some u; data := d |} st =
      ({| status_code := 204; content := NoContent |}, st') ∧
    question_table st' = delete pk (question_table st) ∧
    (∀ k c, choice_table st' !! k = Some c ↔
            choice_table st !! k = Some c ∧ question c ≠ pk) ∧
    (∀ k v, vote_table st' !! k = Some v ↔
            vote_table st !! k = Some v ∧
            ¬ ∃ c, choice_table st !! choice v = Some c ∧ question c = pk) ∧
    choice_count st' pk = 0.
Proof.
  intros Hq Hdate Hcount Hauthor. exists (Question_delete pk st).2.
  destruct (Question_delete_tables pk st) as (Hqt & Hct & Hvt).
  split; [|split; [done|split; [done|split; [done|]]]].
  - unfold dispatch, view, bind, check_permissions; simpl.
    unfold QuestionViewSet_destroy, bind, lift.
    rewrite (get_object_found _ _ _ pk q (NoDup_question_queryset _ _))
      by (apply elem_of_published; tauto).
    rewrite IsAuthorOrReadOnly_object. unfold is_user, User_eqb; simpl.
    by rewrite bool_decide_eq_true_2.
  - apply choice_count_zero. intros k c Hk. by apply Hct in Hk as [_ ?].
Qed.

(** Votes and the counts of the choices *)

Lemma vote_count_insert (m : gmap nat Vote) pk v k :
  length (filter (λ r : nat * Vote, choice r.2 = k) (map_to_list (<[pk := v]> m))) +
    (if m !! pk is Some old then if decide (choice old = k) then 1 else 0 else 0) =
  length (filter (λ r : nat * Vote, choice r.2 = k) (map_to_list m)) +
    (if decide (choice v = k) then 1 else 0).
Proof.
  rewrite <- (insert_delete_eq m pk v).
  rewrite (map_to_list_insert (delete pk m) pk v) by apply lookup_delete_eq.
  rewrite filter_cons; simpl.
  destruct (m !! pk) as [old|] eqn:Hold.
  - rewrite <- (map_to_list_delete m pk old Hold). rewrite filter_cons; simpl.
    repeat case_decide; simpl; lia.
  - rewrite (delete_id m pk Hold). case_decide; simpl; lia.
Qed.

Lemma VoteSerializer_choice_field_result now st question_pk request r :
  VoteSerializer_choice_field now question_pk request st = inr r →
  match data_choice (data request) with
  | None => r = None
  | Some target =>
      ∃ c, r = Some (target, c) ∧ choice_table st !! target = Some c ∧
           question c = question_pk ∧ is_published now st question_pk
  end.
Proof.
  unfold VoteSerializer_choice_field, validate_choice, and_then.
  destruct (data_choice (data request)) as [target|]; [|by intros [= <-]].
  rewrite QuerySet_get_table, QuerySet_get_published.
  destruct (choice_table st !! target) as [c|] eqn:Hc; [|done].
  destruct (question_table st !! question_pk) as [q|] eqn:Hq; [|done].
  case_decide as Hpub; [|done]. simpl. case_decide as Hin; [|done].
  intros [= <-]. exists c. split; [done|]. split; [done|].
  apply elem_of_Question_choices_pk in Hin as (c' & Hc' & Hq').
  split; [congruence|]. exists q. tauto.
Qed.

Lemma VoteSerializer_run_validation_result now st question_pk partial request attrs :
  VoteSerializer_run_validation now question_pk partial request st = inr attrs →
  is_published now st question_pk ∧
  attrs_hide_voter attrs = BooleanField_get_value partial (data request) ∧
  match data_choice (data request) with
  | None => attrs_choice attrs = None
  | Some target =>
      ∃ c, attrs_choice attrs = Some (target, c) ∧ choice_table st !! target = Some c ∧
           question c = question_pk
  end.
Proof.
  unfold VoteSerializer_run_validation, and_then.
  destruct (VoteSerializer_choice_field _ _ _ st) as [e|r] eqn:Hfield; [done|].
  intros Hv. pose proof (validate_attrs _ _ _ _ _ _ Hv) as ->. simpl.
  split.
  - unfold validate, and_then in Hv. rewrite QuerySet_get_published in Hv.
    destruct (question_table st !! question_pk) as [q|] eqn:Hq; [|done].
    case_decide; [|done]. exists q. tauto.
  - split; [done|]. apply VoteSerializer_choice_field_result in Hfield.
    destruct (data_choice (data request)); naive_solver.
Qed.

(** The vote that a POST stores: its choice is the one of the body, or else
    the one of the path. *)
Lemma VoteViewSet_create_result now question_pk choice_pk request st response st' :
  VoteViewSet_create now question_pk choice_pk request st = (inr response, st') →
  ∃ u c,
    let target := default choice_pk (data_choice (data request)) in
    let pk := next_pk (vote_seq st) (vote_table st) in
    let instance := {| voter := u; choice := target;
                       hide_voter :=
                         default true (BooleanField_get_value false (data request)) |} in
    user request = Some u ∧ is_published now st question_pk ∧
    choice_table st !! target = Some c ∧
    (is_Some (data_choice (data request)) → question c = question_pk) ∧
    st' = {| question_table := question_table st;
             choice_table := choice_table st;
             vote_table := <[pk := instance]> (vote_table st);
             question_seq := question_seq st;
             choice_seq := choice_seq st;
             vote_seq := pk |} ∧
    response = {| status_code := 201; content := OneVote (serialize_vote (pk, instance)) |} ∧
    ¬ Exists (λ r, user_pk (voter r.2) = user_pk u ∧ choice r.2 = target)
        (map_to_list (vote_table st)).
Proof.
  unfold VoteViewSet_create, bind, lift.
  destruct (VoteSerializer_run_validation _ _ _ _ st) as [e|attrs] eqn:Hv; [done|].
  apply VoteSerializer_run_validation_result in Hv as (Hpub & Hhide & Hchoice).
  unfold VoteViewSet_perform_create, bind, lift, ret, raise.
  destruct (data_choice (data request)) as [target|] eqn:Hd.
  - destruct Hchoice as (c & -> & Hc & Hq). simpl.
    destruct (user request) as [u|]; [|done].
    unfold Vote_create. case_decide; [done|]. intros; simplify_eq.
    exists u, c. simpl. rewrite Hhide. by repeat split.
  - rewrite Hchoice, QuerySet_get_table.
    destruct (choice_table st !! choice_pk) as [c|] eqn:Hc; [|done]. simpl.
    destruct (user request) as [u|]; [|done].
    unfold Vote_create. case_decide; [done|]. intros; simplify_eq.
    exists u, c. simpl. rewrite Hhide. repeat split; try done.
Qed.

(** X12: a vote is created only under a published question, for the choice
    that the body names, which then belongs to the question of the path, or
    else for the choice of the path; the creation adds one vote to the
    count of that choice and leaves every other count, the questions and
    the choices as they were. *)
Theorem vote_created_counts_once
    (loaded now : Z) (st st' : Store) (question_pk choice_pk : nat) (u : User) (d : Data)
    (response : Response) :
  dispatch loaded now (question_choice_vote_list question_pk choice_pk)
    {| method := POST; user := Some u; data := d |} st = (response, st') →
  status_code response = 201 →
  let target := default choice_pk (data_choice d) in
  is_published now st question_pk ∧
  (∃ c, choice_table st !! target = Some c ∧
        (is_Some (data_choice d) → question c = question_pk)) ∧
  question_table st' = question_table st ∧ choice_table st' = choice_table st ∧
  ∀ k, length (VoteViewSet_get_queryset st' k) =
       length (VoteViewSet_get_queryset st k) + (if decide (k = target) then 1 else 0).
Proof.
  intros Hpost Hstatus target.
  unfold dispatch, view, bind, check_permissions in Hpost; simpl in Hpost.
  destruct (VoteViewSet_create _ _ _ _ st) as [[e|r] st0] eqn:Hc.
  { simplify_eq; simpl in Hstatus. by destruct e. }
  simplify_eq.
  apply VoteViewSet_create_result in Hc as (u' & c & _ & Hpub & Hc & Hq & -> & _);
    simpl in *.
  split; [done|]. split; [by exists c|]. split; [done|]. split; [done|].
  intros k. rewrite !length_vote_queryset; simpl.
  pose proof (vote_count_insert (vote_table st) (next_pk (vote_seq st) (vote_table st))
    {| voter := u'; choice := target;
       hide_voter := default true (BooleanField_get_value false d) |} k)
    as Hcount.
  rewrite next_pk_fresh in Hcount. simpl in Hcount. fold target.
  repeat case_decide; simplify_eq; lia.
Qed.

Lemma QuerySet_get_inr {A} (l : list (nat * A)) pk r :
  QuerySet_get l pk = inr r → r ∈ l ∧ r.1 = pk.
Proof.
  unfold QuerySet_get.
  destruct (filter (λ r0 : nat * A, r0.1 = pk) l) as [|x [|y l']] eqn:Hf; intros; simplify_eq.
  assert (r ∈ filter (λ r0 : nat * A, r0.1 = pk) l) as Hin by (rewrite Hf; by left).
  by apply list_elem_of_filter in Hin as [? ?].
Qed.

Lemma get_object_inr {A} (permission : BasePermission A) request (l : list (nat * A)) pk r :
  get_object permission request l pk = inr r →
  r ∈ l ∧ r.1 = pk ∧ has_object_permission permission request r.2 = true.
Proof.
  unfold get_object, get_object_or_404.
  destruct (QuerySet_get l pk) as [e|obj] eqn:Hget; [by destruct e|].
  apply QuerySet_get_inr in Hget as [Hin Hpk].
  destruct (has_object_permission permission request obj.2) eqn:Hperm; intros; by simplify_eq.
Qed.

Lemma is_user_true owner request :
  is_user owner request = true → ∃ u, user request = Some u ∧ user_pk owner = user_pk u.
Proof.
  unfold is_user, User_eqb. destruct (user request) as [u|]; [|done].
  intros Hu%bool_decide_eq_true. eauto.
Qed.

(** The vote that an update stores. *)
Lemma VoteViewSet_update_result now question_pk choice_pk pk request st response st' :
  VoteViewSet_update now question_pk choice_pk pk request st = (inr response, st') →
  ∃ u old,
    let partial := bool_decide (method request = PATCH) in
    let updated := {| voter := voter old;
                      choice := default (choice old) (data_choice (data request));
                      hide_voter := default (hide_voter old)
                                      (BooleanField_get_value partial (data request)) |} in
    user request = Some u ∧ vote_table st !! pk = Some old ∧ choice old = choice_pk ∧
    user_pk (voter old) = user_pk u ∧ is_published now st question_pk ∧
    (∀ target, data_choice (data request) = Some target →
       ∃ c, choice_table st !! target = Some c ∧ question c = question_pk) ∧
    ¬ voter_choice_taken st pk updated ∧
    st' = {| question_table := question_table st;
             choice_table := choice_table st;
             vote_table := <[pk := updated]> (vote_table st);
             question_seq := question_seq st;
             choice_seq := choice_seq st;
             vote_seq := vote_seq st |} ∧
    response = {| status_code := 200; content := OneVote (serialize_vote (pk, updated)) |}.
Proof.
  unfold VoteViewSet_update, bind, lift.
  destruct (get_object _ _ _ _) as [e|[pk' old]] eqn:Hobj; [done|].
  apply get_object_inr in Hobj as (Hin & Hpk & Hperm); simpl in *; subst pk'.
  apply elem_of_vote_queryset in Hin as [Hold Hchoice].
  apply is_user_true in Hperm as (u & Hu & Hvoter).
  destruct (VoteSerializer_run_validation _ _ _ _ st) as [e|attrs] eqn:Hv; [done|].
  apply VoteSerializer_run_validation_result in Hv as (Hpub & Hhide & Hattrs).
  unfold Vote_save, ret.
  destruct (decide (Exists _ (map_to_list (vote_table st)))) as [Htaken|Htaken]; [done|].
  intros; simplify_eq.
  exists u, old. simpl.
  assert (VoteSerializer_update old attrs =
          {| voter := voter old;
             choice := default (choice old) (data_choice (data request));
             hide_voter := default (hide_voter old)
               (BooleanField_get_value (bool_decide (method request = PATCH))
                  (data request)) |})
    as Hupdated.
  { unfold VoteSerializer_update. rewrite Hhide.
    destruct (data_choice (data request)); [destruct Hattrs as (c & -> & _)|rewrite Hattrs];
      done. }
  rewrite Hupdated in *. repeat split; try done.
  intros target Ht. rewrite Ht in Hattrs. naive_solver.
Qed.

(** X13: a successful update of a vote keeps its voter, takes the choice
    and the visibility from the body where it gives them, and moves one
    vote from the count of the old choice to the count of the new one. Where
    the body does not give the choice, the vote keeps its choice; where it
    does not give [hide_voter], the vote keeps its visibility on PATCH and
    on a PUT with a JSON body, while a PUT with a form stores it as not
    hidden. *)
Theorem vote_update_moves_one_count
    (loaded now : Z) (st st' : Store) (question_pk choice_pk pk : nat) (request : Request)
    (response : Response) :
  method request ∈ [PUT; PATCH] →
  dispatch loaded now (question_choice_vote_detail question_pk choice_pk pk) request st =
    (response, st') →
  status_code response = 200 →
  ∃ old,
    let target := default choice_pk (data_choice (data request)) in
    let hidden :=
      match data_hide_voter (data request) with
      | Some hide => hide
      | None =>
          if is_html_input (data request) && bool_decide (method request = PUT)
          then false else hide_voter old
      end in
    vote_table st !! pk = Some old ∧ choice old = choice_pk ∧
    vote_table st' =
      <[pk := {| voter := voter old; choice := target; hide_voter := hidden |}]>
        (vote_table st) ∧
    ∀ k, length (VoteViewSet_get_queryset st' k) + (if decide (choice_pk = k) then 1 else 0) =
         length (VoteViewSet_get_queryset st k) + (if decide (target = k) then 1 else 0).
Proof.
  intros Hm Hput Hstatus.
  assert (∃ r st0, VoteViewSet_update now question_pk choice_pk pk request st = (inr r, st0) ∧
                   r = response ∧ st0 = st') as (r & st0 & Hupdate & -> & ->).
  { revert Hput. unfold dispatch, view, bind, check_permissions.
    destruct (has_permission IsVoterOnly request).
    2:{ unfold raise. intros; simplify_eq. simpl in Hstatus.
        unfold permission_denied in Hstatus. by destruct (is_authenticated request). }
    unfold ret.
    repeat (apply elem_of_cons in Hm as [->|Hm]); [| |by apply elem_of_nil in Hm];
      (destruct (VoteViewSet_update _ _ _ _ _ st) as [[e|r] st0];
        intros; simplify_eq; [by destruct e|eauto]). }
  apply VoteViewSet_update_result in Hupdate
    as (u & old & _ & Hold & Hchoice & _ & _ & _ & _ & -> & _).
  exists old. simpl. rewrite Hchoice.
  assert (default (hide_voter old)
            (BooleanField_get_value (bool_decide (method request = PATCH)) (data request)) =
          match data_hide_voter (data request) with
          | Some hide => hide
          | None =>
              if is_html_input (data request) && bool_decide (method request = PUT)
              then false else hide_voter old
          end) as Hhidden.
  { unfold BooleanField_get_value.
    destruct (data_hide_voter (data request)); [done|].
    repeat (apply elem_of_cons in Hm as [->|Hm]); [| |by apply elem_of_nil in Hm];
      by destruct (is_html_input (data request)). }
  rewrite Hhidden.
  split; [done|]. split; [done|]. split; [done|].
  intros k. rewrite !length_vote_queryset; simpl.
  pose proof (vote_count_insert (vote_table st) pk
    {| voter := voter old; choice := default choice_pk (data_choice (data request));
       hide_voter :=
         match data_hide_voter (data request) with
         | Some hide => hide
         | None =>
             if is_html_input (data request) && bool_decide (method request = PUT)
             then false else hide_voter old
         end |} k) as Hcount.
  rewrite Hold, Hchoice in Hcount. simpl in Hcount. done.
Qed.


(** ** The serializer with a choice of fields *)

Lemma filter_ext_in {A} (P Q : A → Prop) `{∀ x, Decision (P x)} `{∀ x, Decision (Q x)}
    (l : list A) :
  (∀ x, x ∈ l → P x ↔ Q x) → filter P l = filter Q l.
Proof.
  induction l as [|x l IH]; intros Hext; [done|].
  rewrite !filter_cons.
  rewrite IH by (intros y Hy; apply Hext; by right).
  destruct (decide (P x)) as [HP|HP], (decide (Q x)) as [HQ|HQ]; try done;
    exfalso; apply (Hext x) in HP || apply (Hext x) in HQ; done || by left.
Qed.

Lemma foldl_dict_pop {A} (names : list string) : ∀ (d : list (string * A)),
  NoDup names → (∀ name, name ∈ names → name ∈ d.*1) →
  foldl (λ acc name, acc ≫= dict_pop name) (Some d) names =
  Some (filter (λ item, item.1 ∉ names) d).
Proof.
  induction names as [|name names IH]; intros d Hnd Hin; simpl.
  - f_equal. symmetry. apply filter_all. apply Forall_forall. intros ? _. apply not_elem_of_nil.
  - apply NoDup_cons in Hnd as [Hname Hnd].
    unfold dict_pop at 2. rewrite decide_True by (apply Hin; by left).
    rewrite IH; [|done|].
    + f_equal. rewrite list_filter_filter. apply filter_ext_in.
      intros item _. rewrite not_elem_of_cons. tauto.
    + intros name' Hin'. specialize (Hin name' ltac:(by right)).
      apply list_elem_of_fmap in Hin as (item & -> & Hitem).
      apply list_elem_of_fmap. exists item. split; [done|].
      apply list_elem_of_filter. split; [|done].
      intros Heq. apply Hname. by rewrite <- Heq.
Qed.

Lemma DynamicFieldsModelSerializer_init_keeps {A} (fields : list string)
    (self_fields : list (string * A)) :
  DynamicFieldsModelSerializer_init (Some fields) self_fields =
  Some (filter (λ item, item.1 ∈ fields) self_fields).
Proof.
  unfold DynamicFieldsModelSerializer_init.
  rewrite foldl_dict_pop.
  - f_equal. apply filter_ext_in. intros item Hitem.
    rewrite elem_of_elements, elem_of_difference, !elem_of_list_to_set.
    assert (item.1 ∈ self_fields.*1) by (apply list_elem_of_fmap; by exists item).
    destruct (decide (item.1 ∈ fields)); tauto.
  - apply NoDup_elements.
  - intros name. rewrite elem_of_elements, elem_of_difference, elem_of_list_to_set. tauto.
Qed.

(** X17: [DynamicFieldsModelSerializer.__init__] never raises a [KeyError]:
    without the [fields] argument it keeps every field, with it it keeps
    exactly the fields that the argument names, in their order; names that
    are no field are ignored, and applying it again changes nothing. *)
Theorem dynamic_fields_keeps_named_fields {A} (fields : option (list string))
    (self_fields : list (string * A)) :
  DynamicFieldsModelSerializer_init fields self_fields =
  Some (match fields with
        | None => self_fields
        | Some fields => filter (λ item, item.1 ∈ fields) self_fields
        end) ∧
  (∀ kept, DynamicFieldsModelSerializer_init fields self_fields = Some kept →
     DynamicFieldsModelSerializer_init fields kept = Some kept).
Proof.
  assert (DynamicFieldsModelSerializer_init fields self_fields =
          Some (match fields with
                | None => self_fields
                | Some fields => filter (λ item, item.1 ∈ fields) self_fields
                end)) as Heq.
  { destruct fields; [apply DynamicFieldsModelSerializer_init_keeps|done]. }
  split; [done|]. intros kept Hkept. rewrite Heq in Hkept. injection Hkept as <-.
  destruct fields as [fields|]; [|done].
  rewrite DynamicFieldsModelSerializer_init_keeps. f_equal.
  apply filter_all. apply Forall_forall. intros item Hin.
  by apply list_elem_of_filter in Hin as [? _].
Qed.

(** ** A first vote *)

Lemma not_holds_vote_voted st u question_pk :
  ¬ holds_vote st u question_pk →
  filter_vote_voter st (Question_choices st question_pk) (user_pk u) = [].
Proof.
  intros Hnone.
  destruct (filter_vote_voter st (Question_choices st question_pk) (user_pk u))
    as [|[k c] l] eqn:Hvoted; [done|].
  exfalso. apply Hnone.
  assert ((k, c) ∈ filter_vote_voter st (Question_choices st question_pk) (user_pk u)) as Hin
    by (rewrite Hvoted; by left).
  unfold filter_vote_voter in Hin.
  apply list_elem_of_bind in Hin as ([k' c'] & Hin & Hchoice).
  apply list_elem_of_bind in Hin as ([pk v] & Hin & Hvote).
  apply elem_of_Question_choices in Hchoice as [Hc Hq].
  apply elem_of_map_to_list in Hvote. simpl in Hin.
  case_decide as Hjoin; [|by apply elem_of_nil in Hin]. destruct Hjoin as [Hcv Hvoter].
  exists pk, v, c'. rewrite Hcv. done.
Qed.

(** The first vote of a user under a published question: it is stored for
    the choice that the body names, when that choice belongs to the
    question, or else for the choice of the path. *)
Lemma VoteViewSet_create_first_vote
    (loaded now : Z) (st : Store) (question_pk choice_pk : nat) (u : User) (d : Data)
    (c : Choice) :
  let target := default choice_pk (data_choice d) in
  is_published now st question_pk →
  ¬ holds_vote st u question_pk →
  choice_table st !! target = Some c →
  (is_Some (data_choice d) → question c = question_pk) →
  (∀ k v, vote_table st !! k = Some v → user_pk (voter v) = user_pk u → choice v ≠ target) →
  let pk := next_pk (vote_seq st) (vote_table st) in
  let instance := {| voter := u; choice := target;
                     hide_voter := default true (BooleanField_get_value false d) |} in
  dispatch loaded now (question_choice_vote_list question_pk choice_pk)
    {| method := POST; user := Some u; data := d |} st =
  ({| status_code := 201; content := OneVote (serialize_vote (pk, instance)) |},
   {| question_table := question_table st;
      choice_table := choice_table st;
      vote_table := <[pk := instance]> (vote_table st);
      question_seq := question_seq st;
      choice_seq := choice_seq st;
      vote_seq := pk |}).
Proof.
  intros target Hpub Hnone Hc Hq Hfree pk instance.
  unfold dispatch, view, bind, check_permissions; simpl.
  unfold VoteViewSet_create, bind, lift, VoteSerializer_run_validation, and_then.
  assert (VoteSerializer_choice_field now question_pk
            {| method := POST; user := Some u; data := d |} st =
          inr (if data_choice d is Some t then Some (t, c) else None)) as ->.
  { unfold VoteSerializer_choice_field, validate_choice, and_then; simpl.
    unfold target in Hc. destruct (data_choice d) as [t|]; [|done]. simpl in Hc.
    rewrite QuerySet_get_table, Hc.
    destruct (QuerySet_get_is_published _ _ _ Hpub) as [q ->]. simpl.
    rewrite decide_True; [done|].
    apply elem_of_Question_choices_pk. exists c. split; [done|]. by apply Hq. }
  rewrite validate_published by done. simpl.
  rewrite not_holds_vote_voted by done.
  rewrite decide_False by (by intros [_ ?]).
  unfold VoteViewSet_perform_create, bind, lift; simpl.
  assert (match (if data_choice d is Some t then Some (t, c) else None) with
          | Some c0 => ret c0
          | None => λ st0, (QuerySet_get (map_to_list (choice_table st0)) choice_pk, st0)
          end st = (inr (target, c), st)) as ->.
  { unfold target in *. destruct (data_choice d) as [t|]; simpl in *; [done|].
    by rewrite QuerySet_get_table, Hc. }
  simpl. unfold Vote_create. rewrite decide_False; [done|].
  rewrite Exists_exists. intros ([k v] & Hin & Hvoter & Hchoice); simpl in *.
  apply elem_of_map_to_list in Hin. by apply (Hfree k v).
Qed.

(** C9, amended: a vote is read with the literal "*******" in place of the
    name of its voter when [hide_voter] is set and with the name of the
    voter when it is not, in every row of a page of the votes of a choice as
    in the detail of a vote. The first vote of a user under a published
    question, sent without [hide_voter], is created, for the choice that the
    body names or else for the choice of the path: it is stored with
    [hide_voter] set and answered with the hidden name when the body is
    JSON, and stored with [hide_voter] not set and answered with the name of
    the voter when the body is a form. Whatever a JSON body without
    [hide_voter] holds, the vote that its POST creates is stored with
    [hide_voter] set. *)
Theorem voter_username_hidden_unless_revealed
    (loaded now : Z) (st : Store) (question_pk choice_pk pk : nat) (u : User) (d : Data) :
  let shown (v : Vote) := if hide_voter v then "*******" else username (voter v) in
  let request m := {| method := m; user := Some u; data := d |} in
  (∀ v, get_voter_username v = shown v) ∧
  (key_in_range choice_pk →
   ∃ results,
     dispatch loaded now (question_choice_vote_list question_pk choice_pk) (request GET) st =
       ({| status_code := 200;
           content := Votes (length (VoteViewSet_get_queryset st choice_pk)) results |}, st) ∧
     length results =
       Pos.to_nat PAGE_SIZE `min` length (VoteViewSet_get_queryset st choice_pk) ∧
     NoDup (vote_id <$> results) ∧
     ∀ row, row ∈ results →
       ∃ v, vote_table st !! vote_id row = Some v ∧ choice v = choice_pk ∧
            voter_username row = shown v) ∧
  (∀ v, vote_table st !! pk = Some v → choice v = choice_pk → voter v = u →
     dispatch loaded now (question_choice_vote_detail question_pk choice_pk pk)
       (request GET) st =
     ({| status_code := 200;
         content := OneVote {| vote_id := pk; voter_username := shown v |} |}, st)) ∧
  (∀ c, let target := default choice_pk (data_choice d) in
     is_published now st question_pk →
     ¬ holds_vote st u question_pk →
     choice_table st !! target = Some c →
     (is_Some (data_choice d) → question c = question_pk) →
     (∀ k v, vote_table st !! k = Some v → user_pk (voter v) = user_pk u →
             choice v ≠ target) →
     data_hide_voter d = None →
     let new_pk := next_pk (vote_seq st) (vote_table st) in
     let hidden := negb (is_html_input d) in
     dispatch loaded now (question_choice_vote_list question_pk choice_pk) (request POST) st =
     ({| status_code := 201;
         content := OneVote {| vote_id := new_pk;
                               voter_username := if hidden then "*******" else username u |} |},
      {| question_table := question_table st;
         choice_table := choice_table st;
         vote_table :=
           <[new_pk := {| voter := u; choice := target; hide_voter := hidden |}]>
             (vote_table st);
         question_seq := question_seq st;
         choice_seq := choice_seq st;
         vote_seq := new_pk |})) ∧
  (∀ response st',
     data_hide_voter d = None → is_html_input d = false →
     dispatch loaded now (question_choice_vote_list question_pk choice_pk) (request POST) st =
       (response, st') →
     status_code response = 201 →
     ∃ new_pk v,
       vote_table st !! new_pk = None ∧ vote_table st' !! new_pk = Some v ∧
       hide_voter v = true ∧
       content response = OneVote {| vote_id := new_pk; voter_username := "*******" |}).
Proof.
  intros shown request; unfold request; clear request.
  split; [done|]. split; [|split; [|split]].
  - intros _. exists (serialize_vote <$> (paginate (VoteViewSet_get_queryset st choice_pk)).2).
    split; [done|]. split; [by rewrite length_fmap, paginate_length|].
    split; [rewrite serialize_vote_ids; apply paginate_NoDup, NoDup_vote_queryset|].
    intros row ([k v] & -> & Hin%paginate_elem_of)%list_elem_of_fmap.
    apply elem_of_vote_queryset in Hin as [Hv Hc]. by exists v.
  - intros v Hv Hc Hu.
    unfold dispatch, view, bind, check_permissions; simpl.
    unfold VoteViewSet_retrieve, bind, lift.
    rewrite (get_object_found _ _ _ pk v (NoDup_vote_queryset _ _))
      by by apply elem_of_vote_queryset.
    simpl. unfold is_user, User_eqb; simpl. rewrite Hu.
    by rewrite bool_decide_eq_true_2.
  - intros c Hpub Hnone Hc Hq Hfree Hhide.
    rewrite (VoteViewSet_create_first_vote loaded now st question_pk choice_pk u d c)
      by done.
    unfold serialize_vote, get_voter_username, BooleanField_get_value; simpl.
    rewrite Hhide. by destruct (is_html_input d).
  - intros response st' Hd Hjson Hpost Hstatus.
    unfold dispatch, view, bind, check_permissions in Hpost; simpl in Hpost.
    destruct (VoteViewSet_create _ _ _ _ st) as [[e|r] st0] eqn:Hc.
    + simplify_eq; simpl in Hstatus. by destruct e.
    + simplify_eq.
      apply VoteViewSet_create_success in Hc as (u' & new_pk & target & _ & Hnew & -> & ->).
      simpl in *. unfold BooleanField_get_value. rewrite Hd, Hjson. simpl.
      eexists new_pk, _. split; [done|]. split; [apply lookup_insert_eq|]. done.
Qed.

(** X15: under a published question for which the requester holds no vote,
    the POST of a vote with no [choice] in the body stores a vote of the
    requester for the choice of the path, when that choice is stored and the
    requester has no vote for it, under a key that the table has never given
    to a vote, and answers 201 with that key and the name of the voter,
    hidden or not as the body asks; when the body does not say, a JSON body
    hides the name and a form shows it. The choice of the path is not
    compared with the question of the path. *)
Theorem vote_created_for_choice_of_path
    (loaded now : Z) (st : Store) (question_pk choice_pk : nat) (u : User) (d : Data)
    (c : Choice) :
  is_published now st question_pk →
  ¬ holds_vote st u question_pk →
  data_choice d = None →
  choice_table st !! choice_pk = Some c →
  (∀ k v, vote_table st !! k = Some v → user_pk (voter v) = user_pk u → choice v ≠ choice_pk) →
  let pk := next_pk (vote_seq st) (vote_table st) in
  let hidden :=
    match data_hide_voter d with
    | Some hide => hide
    | None => negb (is_html_input d)
    end in
  let instance := {| voter := u; choice := choice_pk; hide_voter := hidden |} in
  vote_table st !! pk = None ∧ vote_seq st < pk ∧
  dispatch loaded now (question_choice_vote_list question_pk choice_pk)
    {| method := POST; user := Some u; data := d |} st =
  ({| status_code := 201;
      content := OneVote
        {| vote_id := pk;
           voter_username := if hidden then "*******" else username u |} |},
   {| question_table := question_table st;
      choice_table := choice_table st;
      vote_table := <[pk := instance]> (vote_table st);
      question_seq := question_seq st;
      choice_seq := choice_seq st;
      vote_seq := pk |}).
Proof.
  intros Hpub Hnone Hd Hc Hfree pk hidden instance.
  split; [apply next_pk_fresh|]. split; [apply next_pk_above_seq|].
  rewrite (VoteViewSet_create_first_vote loaded now st question_pk choice_pk u d c);
    rewrite ?Hd; [|done|done|done|by intros [? [=]]|done].
  unfold serialize_vote, get_voter_username, BooleanField_get_value, instance, hidden, pk;
    simpl.
  destruct (data_hide_voter d) as [hide|]; [done|]. by destruct (is_html_input d).
Qed.

(** ** The constraints of the schema are kept *)

Lemma Question_save_consistent q st pk st1 :
  Question_save q st = (inr pk, st1) → store_consistent st →
  store_consistent st1 ∧ question_table st1 = <[pk := q]> (question_table st).
Proof.
  unfold Question_save. case_decide as Htaken; [done|]. intros [= <- <-] [H1 H2 H3 H4 H5].
  split; [|done]. split; simpl; try done.
  - intros k1 k2 q1 q2 Hk1 Hk2 Htext.
    assert (∀ k q', question_table st !! k = Some q' → question_text q' ≠ question_text q)
      as Hfresh.
    { intros k q' Hk Heq. apply Htaken, Exists_exists. exists (k, q').
      split; [by apply elem_of_map_to_list|done]. }
    destruct (decide (k1 = next_pk (question_seq st) (question_table st))) as [->|Hne1],
             (decide (k2 = next_pk (question_seq st) (question_table st))) as [->|Hne2]; [done| | |].
    + rewrite lookup_insert_eq in Hk1. rewrite lookup_insert_ne in Hk2 by done.
      simplify_eq. by destruct (Hfresh k2 q2).
    + rewrite lookup_insert_eq in Hk2. rewrite lookup_insert_ne in Hk1 by done.
      simplify_eq. by destruct (Hfresh k1 q1).
    + rewrite lookup_insert_ne in Hk1, Hk2 by done. eauto.
  - intros k c Hk. destruct (H4 k c Hk) as [q' Hq'].
    destruct (decide (question c = next_pk (question_seq st) (question_table st))) as [->|Hne].
    + rewrite lookup_insert_eq. by eexists.
    + rewrite lookup_insert_ne by done. by eexists.
Qed.

Lemma Choice_save_consistent question_pk text st k st1 :
  Choice_save question_pk text st = (inr k, st1) →
  is_Some (question_table st !! question_pk) → store_consistent st →
  store_consistent st1 ∧ question_table st1 = question_table st.
Proof.
  unfold Choice_save. destruct text as [t|]; [|done].
  case_decide as Htaken; [done|]. intros [= <- <-] Hq [H1 H2 H3 H4 H5].
  split; [|done]. split; simpl; try done.
  - assert (∀ k c, choice_table st !! k = Some c → question c = question_pk →
                   choice_text c ≠ t) as Hfresh.
    { intros k c Hk Hqc Heq. apply Htaken, Exists_exists. exists (k, c).
      split; [by apply elem_of_map_to_list|done]. }
    intros k1 k2 c1 c2 Hk1 Hk2 Hqq Htext.
    destruct (decide (k1 = next_pk (choice_seq st) (choice_table st))) as [->|Hne1],
             (decide (k2 = next_pk (choice_seq st) (choice_table st))) as [->|Hne2]; [done| | |].
    + rewrite lookup_insert_eq in Hk1. rewrite lookup_insert_ne in Hk2 by done.
      injection Hk1 as <-. simpl in *. by destruct (Hfresh k2 c2).
    + rewrite lookup_insert_eq in Hk2. rewrite lookup_insert_ne in Hk1 by done.
      injection Hk2 as <-. simpl in *. by destruct (Hfresh k1 c1).
    + rewrite lookup_insert_ne in Hk1, Hk2 by done. eauto.
  - intros k c Hk.
    destruct (decide (k = next_pk (choice_seq st) (choice_table st))) as [->|Hne].
    + rewrite lookup_insert_eq in Hk. by injection Hk as <-.
    + rewrite lookup_insert_ne in Hk by done. eauto.
  - intros k v Hk. destruct (H5 k v Hk) as [c Hc].
    destruct (decide (choice v = next_pk (choice_seq st) (choice_table st))) as [->|Hne].
    + rewrite lookup_insert_eq. by eexists.
    + rewrite lookup_insert_ne by done. by eexists.
Qed.

Lemma save_choices_consistent question_pk choices : ∀ st st',
  save_choices question_pk choices st = (inr (), st') →
  is_Some (question_table st !! question_pk) → store_consistent st →
  store_consistent st'.
Proof.
  induction choices as [|c choices IH]; intros st st'; simpl.
  - unfold ret. by intros [= <-].
  - unfold bind. destruct (Choice_save _ _ st) as [[e|k] st1] eqn:Hc; [done|].
    intros Hrest Hq Hst.
    destruct (Choice_save_consistent _ _ _ _ _ Hc Hq Hst) as [Hst1 Hqt].
    apply (IH st1 st' Hrest); [by rewrite Hqt|done].
Qed.

Lemma QuestionManager_create_consistent now a text date choices st r st' :
  QuestionManager_create now a text date choices st = (inr r, st') →
  store_consistent st → store_consistent st'.
Proof.
  unfold QuestionManager_create, atomic, QuestionManager_create_body, bind, ret.
  destruct (Question_save _ st) as [[e|pk] st1] eqn:Hq; [done|].
  destruct (save_choices pk choices st1) as [[e|[]] st2] eqn:Hc; [done|].
  intros [= <- <-] Hst.
  destruct (Question_save_consistent _ _ _ _ Hq Hst) as [Hst1 Hqt].
  apply (save_choices_consistent _ _ _ _ Hc); [|done].
  rewrite Hqt, lookup_insert_eq. by eexists.
Qed.

Lemma Question_delete_consistent pk st :
  store_consistent st → store_consistent (Question_delete pk st).2.
Proof.
  intros [H1 H2 H3 H4 H5].
  destruct (Question_delete_tables pk st) as (Hqt & Hct & Hvt).
  split.
  - rewrite Hqt. intros k1 k2 q1 q2 Hk1%lookup_delete_Some Hk2%lookup_delete_Some.
    naive_solver.
  - intros k1 k2 c1 c2 Hk1%Hct Hk2%Hct. naive_solver.
  - intros k1 k2 v1 v2 Hk1%Hvt Hk2%Hvt. naive_solver.
  - intros k c [Hk Hne]%Hct. rewrite Hqt. destruct (H4 k c Hk) as [q Hq].
    exists q. rewrite lookup_delete_ne; [done|]. intros ->. done.
  - intros k v [Hk Hnone]%Hvt. destruct (H5 k v Hk) as [c Hc].
    exists c. apply Hct. split; [done|]. intros Hq. apply Hnone. eauto.
Qed.

Lemma vote_insert_consistent pk v seq st :
  store_consistent st → is_Some (choice_table st !! choice v) →
  ¬ voter_choice_taken st pk v →
  store_consistent {| question_table := question_table st;
                      choice_table := choice_table st;
                      vote_table := <[pk := v]> (vote_table st);
                      question_seq := question_seq st;
                      choice_seq := choice_seq st;
                      vote_seq := seq |}.
Proof.
  intros [H1 H2 H3 H4 H5] Hc Htaken.
  assert (∀ k v', vote_table st !! k = Some v' → k ≠ pk →
                  user_pk (voter v') = user_pk (voter v) → choice v' ≠ choice v) as Hfree.
  { intros k v' Hk Hne Hvoter Hchoice. apply Htaken, Exists_exists. exists (k, v').
    split; [by apply elem_of_map_to_list|done]. }
  split; simpl; try done.
  - intros k1 k2 v1 v2 Hk1 Hk2 Hvoter Hchoice.
    destruct (decide (k1 = pk)) as [->|Hne1], (decide (k2 = pk)) as [->|Hne2]; [done| | |].
    + rewrite lookup_insert_eq in Hk1. rewrite lookup_insert_ne in Hk2 by done.
      injection Hk1 as <-. by destruct (Hfree k2 v2).
    + rewrite lookup_insert_eq in Hk2. rewrite lookup_insert_ne in Hk1 by done.
      injection Hk2 as <-. by destruct (Hfree k1 v1).
    + rewrite lookup_insert_ne in Hk1, Hk2 by done. eauto.
  - intros k v' Hk. destruct (decide (k = pk)) as [->|Hne].
    + rewrite lookup_insert_eq in Hk. by injection Hk as <-.
    + rewrite lookup_insert_ne in Hk by done. eauto.
Qed.

Lemma Vote_delete_consistent pk st :
  store_consistent st → store_consistent (Vote_delete pk st).2.
Proof.
  intros [H1 H2 H3 H4 H5]. split; simpl; try done.
  - intros k1 k2 v1 v2 [_ Hk1]%lookup_delete_Some [_ Hk2]%lookup_delete_Some. eauto.
  - intros k v [_ Hk]%lookup_delete_Some. eauto.
Qed.

Lemma view_success_cases loaded now route request st response st' :
  view loaded now route request st = (inr response, st') →
  st' = st ∨
  (∃ u text date choices r,
     QuestionManager_create now u text date choices st = (inr r, st')) ∨
  (∃ pk, st' = (Question_delete pk st).2) ∨
  (∃ question_pk choice_pk,
     VoteViewSet_create now question_pk choice_pk request st = (inr response, st')) ∨
  (∃ question_pk choice_pk pk,
     VoteViewSet_update now question_pk choice_pk pk request st = (inr response, st')) ∨
  (∃ pk, st' = (Vote_delete pk st).2).
Proof.
  unfold view. destruct route; unfold bind, check_permissions;
    destruct (has_permission _ request); unfold ret, raise; try done;
    destruct (method request); try done; intros Hview;
    first
    [ left; revert Hview; run_handler; done
    | right; left; revert Hview;
      unfold QuestionViewSet_create, QuestionViewSet_perform_create, bind, lift, ret, raise;
      intros; repeat case_match; simplify_eq; by eauto 10
    | right; right; left; revert Hview; run_handler; by eauto
    | right; right; right; left; by eauto
    | right; right; right; right; left; by eauto
    | right; right; right; right; right; revert Hview; run_handler; by eauto ].
Qed.

(** X16: every request keeps the constraints of the schema: the unique
    question text, the unique choice text within a question, the unique pair
    of voter and choice, and the foreign keys of the choices and of the
    votes. *)
Theorem every_request_keeps_the_constraints
    (loaded now : Z) (route : Route) (request : Request) (st : Store) :
  store_consistent st → store_consistent (dispatch loaded now route request st).2.
Proof.
  intros Hst. unfold dispatch.
  destruct (view loaded now route request st) as [[e|response] st'] eqn:Hview; simpl.
  { by rewrite (view_failure _ _ _ _ _ _ _ Hview). }
  apply view_success_cases in Hview
    as [->|[(u & text & date & choices & r & Hcreate)|[(pk & ->)|
        [(question_pk & choice_pk & Hcreate)|
         [(question_pk & choice_pk & pk & Hupdate)|(pk & ->)]]]]].
  - done.
  - by eapply QuestionManager_create_consistent.
  - by apply Question_delete_consistent.
  - apply VoteViewSet_create_result in Hcreate
      as (u & c & _ & _ & Hc & _ & -> & _ & Hfree).
    apply vote_insert_consistent; simpl; [done|by eexists|].
    intros Htaken. apply Hfree. unfold voter_choice_taken in Htaken; simpl in Htaken.
    apply Exists_exists in Htaken as (r & Hin & _ & ? & ?).
    apply Exists_exists. by exists r.
  - apply VoteViewSet_update_result in Hupdate
      as (u & old & _ & Hold & _ & _ & _ & Htarget & Htaken & -> & _).
    apply vote_insert_consistent; simpl; [done| |done].
    destruct (data_choice (data request)) as [target|]; simpl.
    + destruct (Htarget target eq_refl) as (c & Hc & _). by eexists.
    + by eapply vote_choice_stored.
  - by apply Vote_delete_consistent.
Qed.

Lemma sample_store_consistent : store_consistent sample_store.
Proof.
  assert (∀ k q, question_table sample_store !! k = Some q →
            (k, q) ∈ [(2, Build_Question alice "Future question" 500 40);
                      (1, Build_Question alice "Past question" 50 40)]) as Hq.
  { intros k q Hk. apply elem_of_map_to_list in Hk. by vm_compute in Hk. }
  assert (∀ k c, choice_table sample_store !! k = Some c →
            (k, c) ∈ [(2, Build_Choice 1 "Second choice"); (3, Build_Choice 2 "Third choice");
                      (1, Build_Choice 1 "First choice")]) as Hc.
  { intros k c Hk. apply elem_of_map_to_list in Hk. by vm_compute in Hk. }
  assert (∀ k v, vote_table sample_store !! k = Some v →
            (k, v) ∈ [(2, Build_Vote alice 3 false); (1, Build_Vote bob 1 true)]) as Hv.
  { intros k v Hk. apply elem_of_map_to_list in Hk. by vm_compute in Hk. }
  split.
  - intros k1 k2 q1 q2 Hk1%Hq Hk2%Hq.
    repeat (apply elem_of_cons in Hk1 as [[= -> ->]|Hk1]);
      repeat (apply elem_of_cons in Hk2 as [[= -> ->]|Hk2]);
      try (by apply elem_of_nil in Hk1); try (by apply elem_of_nil in Hk2); done.
  - intros k1 k2 c1 c2 Hk1%Hc Hk2%Hc.
    repeat (apply elem_of_cons in Hk1 as [[= -> ->]|Hk1]);
      repeat (apply elem_of_cons in Hk2 as [[= -> ->]|Hk2]);
      try (by apply elem_of_nil in Hk1); try (by apply elem_of_nil in Hk2); done.
  - intros k1 k2 v1 v2 Hk1%Hv Hk2%Hv.
    repeat (apply elem_of_cons in Hk1 as [[= -> ->]|Hk1]);
      repeat (apply elem_of_cons in Hk2 as [[= -> ->]|Hk2]);
      try (by apply elem_of_nil in Hk1); try (by apply elem_of_nil in Hk2); done.
  - intros k c Hk%Hc.
    repeat (apply elem_of_cons in Hk as [[= -> ->]|Hk]);
      try (by apply elem_of_nil in Hk); by eexists.
  - intros k v Hk%Hv.
    repeat (apply elem_of_cons in Hk as [[= -> ->]|Hk]);
      try (by apply elem_of_nil in Hk); by eexists.
Qed.

(** ** The list of the questions *)

Lemma length_question_queryset loaded st :
  length (QuestionViewSet_queryset loaded st) =
  length (filter (λ r, (date_published r.2 ≤ loaded)%Z ∧ 1 ≤ choice_count st r.1)
            (map_to_list (question_table st))).
Proof.
  unfold QuestionViewSet_queryset, PublishedQuestionManager_get_queryset.
  rewrite merge_sort_Permutation. f_equal.
  apply filter_ext_in. intros r _. apply not_excluded_iff.
Qed.

(** X7: the list of the questions answers 200 with the number of the stored
    questions that have a choice and a publication date not after the time
    the views were loaded, and with a page of these questions, each once,
    most recently published first: no such question that is left out of the
    page is more recent than one of the page, and the page holds all of them
    when they are not more than a page. *)
Theorem question_list_sorted_and_gated
    (loaded now : Z) (st : Store) (u : User) (d : Data) :
  let gated (row : QuestionRepr) :=
    ∃ q, question_table st !! question_id row = Some q ∧
         row = serialize_question (question_id row, q) ∧
         (date_published q ≤ loaded)%Z ∧ 1 ≤ choice_count st (question_id row) in
  let count :=
    length (filter (λ r, (date_published r.2 ≤ loaded)%Z ∧ 1 ≤ choice_count st r.1)
              (map_to_list (question_table st))) in
  ∃ results,
    dispatch loaded now question_list {| method := GET; user := Some u; data := d |} st =
      ({| status_code := 200; content := Questions count results |}, st) ∧
    length results = Pos.to_nat PAGE_SIZE `min` count ∧
    (∀ row, row ∈ results → gated row) ∧
    StronglySorted newer_first results ∧
    NoDup (question_id <$> results) ∧
    (∀ row other, row ∈ results → gated other → other ∉ results → newer_first row other) ∧
    (count ≤ Pos.to_nat PAGE_SIZE → ∀ row, gated row → row ∈ results).
Proof.
  intros gated count; unfold gated, count; clear gated count.
  rewrite <- length_question_queryset.
  set (queryset := QuestionViewSet_queryset loaded st).
  assert (StronglySorted date_desc queryset) as Hsorted
    by apply (StronglySorted_merge_sort _).
  assert (∀ row, (∃ q, question_table st !! question_id row = Some q ∧
                       row = serialize_question (question_id row, q) ∧
                       (date_published q ≤ loaded)%Z ∧ 1 ≤ choice_count st (question_id row)) →
                 ∃ r, r ∈ queryset ∧ row = serialize_question r) as Hgated.
  { intros row (q & Hq & Hrow & Hdate & Hcount). exists (question_id row, q).
    split; [|done]. apply elem_of_published. tauto. }
  exists (serialize_question <$> (paginate queryset).2).
  split; [done|]. split; [by rewrite length_fmap, paginate_length|].
  split; [|split; [|split; [|split]]].
  - intros row ([pk q] & -> & Hin%paginate_elem_of)%list_elem_of_fmap.
    apply elem_of_published in Hin. exists q. simpl. tauto.
  - apply (StronglySorted_fmap _ date_desc); [done|].
    unfold paginate; simpl. rewrite <- (take_drop (Pos.to_nat PAGE_SIZE) queryset) in Hsorted.
    by apply StronglySorted_app_1_l in Hsorted.
  - rewrite serialize_question_ids. apply paginate_NoDup, NoDup_question_queryset.
  - intros row other ([pk q] & -> & Hin)%list_elem_of_fmap Hother Hout.
    apply Hgated in Hother as (r & Hr & ->).
    unfold paginate in Hin, Hout; simpl in Hin, Hout.
    rewrite <- (take_drop (Pos.to_nat PAGE_SIZE) queryset) in Hr, Hsorted.
    apply elem_of_app in Hr as [Hr|Hr].
    + exfalso. apply Hout. apply list_elem_of_fmap. by exists r.
    + apply (StronglySorted_app_1_elem_of _ _ _ _ _ Hsorted Hin Hr).
  - intros Hfits row (r & Hr & ->)%Hgated.
    rewrite paginate_all by done. apply list_elem_of_fmap. by exists r.
Qed.

(** ** The deletion of a vote *)

(** X14: the DELETE of a vote by its voter answers 204, removes that vote
    alone and takes one vote off the count of its choice. *)
Theorem vote_deleted_by_voter_uncounts
    (loaded now : Z) (st : Store) (question_pk pk : nat) (v : Vote) (u : User) (d : Data) :
  vote_table st !! pk = Some v →
  user_pk (voter v) = user_pk u →
  ∃ st',
    dispatch loaded now (question_choice_vote_detail question_pk (choice v) pk)
      {| method := DELETE; user := Some u; data := d |} st =
      ({| status_code := 204; content := NoContent |}, st') ∧
    question_table st' = question_table st ∧ choice_table st' = choice_table st ∧
    vote_table st' = delete pk (vote_table st) ∧
    ∀ k, length (VoteViewSet_get_queryset st' k) + (if decide (choice v = k) then 1 else 0) =
         length (VoteViewSet_get_queryset st k).
Proof.
  intros Hv Hvoter. exists (Vote_delete pk st).2.
  split; [|split; [done|split; [done|split; [done|]]]].
  - unfold dispatch, view, bind, check_permissions; simpl.
    unfold VoteViewSet_destroy, bind, lift.
    rewrite (get_object_found _ _ _ pk v (NoDup_vote_queryset _ _))
      by by apply elem_of_vote_queryset.
    simpl. rewrite is_user_Some. by rewrite bool_decide_eq_true_2.
  - intros k. rewrite !length_vote_queryset; simpl.
    rewrite <- (map_to_list_delete (vote_table st) pk v Hv).
    rewrite filter_cons; simpl. case_decide; simpl; lia.
Qed.

End Application.

(** ** Instances: the statements at concrete requests *)

(** The instances below are computed with a page size of 10. *)

Lemma QuestionManager_create_all_or_nothing_witness :
  QuestionManager_create 100 alice "Q" 50
    [choice_data "A"; choice_data "A"; choice_data "B"] empty_store =
  (inl (IntegrityError "unique_choices_per_question"), empty_store).
Proof.
  pose (q := Build_Question alice "Q" 50 100).
  pose (st1 := (Question_save q empty_store).2).
  pose (st2 := (save_choices 1 [choice_data "A"] st1).2).
  refine (proj1 (QuestionManager_create_all_or_nothing 100 alice "Q" 50
    [choice_data "A"] (choice_data "A") [choice_data "B"]
    empty_store st1 st2 st2 1 (IntegrityError "unique_choices_per_question") _ _ _));
    vm_compute; reflexivity.
Defined.

(** C3, as stated, fails: "A" and " A" are two distinct texts, so a payload
    with these two choices has 2 pairwise distinct choice texts; the field
    of the serializer strips both to "A" before [validate_choices] compares
    them, and the check raises "Should be unique.". *)
Lemma distinct_choice_texts_equal_once_stripped :
  ¬ (∀ choices validated : list (gmap string string),
       2 ≤ length choices ≤ 20 → ¬ has_duplicate choices →
       ChoiceSerializer_many choices = inr validated →
       validate_choices validated = inr validated).
Proof.
  intros H.
  specialize (H [choice_data "A"; choice_data " A"] [choice_data "A"; choice_data "A"]).
  assert (2 ≤ length [choice_data "A"; choice_data " A"] ≤ 20) as Hlen by (simpl; lia).
  assert (¬ has_duplicate [choice_data "A"; choice_data " A"]) as Hnd.
  { rewrite has_duplicate_NoDup. intros Hdup; apply Hdup.
    vm_compute. repeat constructor; set_solver. }
  assert (ChoiceSerializer_many [choice_data "A"; choice_data " A"] =
          inr [choice_data "A"; choice_data "A"]) as Hmany by (vm_compute; reflexivity).
  specialize (H Hlen Hnd Hmany). vm_compute in H. discriminate H.
Qed.

(** The POST of a question with the choices "A" and " A" is answered with
    400. *)
Example question_with_choices_equal_once_stripped :
  dispatch 10 100 100 question_list
    {| method := POST; user := Some bob;
       data := question_data "New question" 60 [choice_data "A"; choice_data " A"] |}
    sample_store =
  ({| status_code := 400; content := Error (ValidationError "Should be unique.") |},
   sample_store).
Proof. vm_compute. reflexivity. Qed.

Lemma choices_bounds_and_distinct_after_strip_witness :
  ChoiceSerializer_many [choice_data " A"; choice_data "a "] =
    inr [choice_data "A"; choice_data "a"] ∧
  validate_choices [choice_data "A"; choice_data "a"] =
    inr [choice_data "A"; choice_data "a"] ∧
  ∃ detail,
    dispatch 10 100 100 question_list
      {| method := POST; user := Some bob;
         data := question_data "New question" 60 [choice_data "A"; choice_data " A"] |}
      sample_store =
    ({| status_code := 400; content := Error (ValidationError detail) |}, sample_store).
Proof.
  assert (¬ has_trimmed_duplicate [choice_data " A"; choice_data "a "]) as Hnd.
  { rewrite has_trimmed_duplicate_NoDup. intros Hdup; apply Hdup.
    vm_compute. repeat constructor; set_solver. }
  assert (2 ≤ length [choice_data " A"; choice_data "a "] ≤ 20) as Hlen by (simpl; lia).
  pose proof (proj2 (proj2 (proj2 (proj2 (choices_bounds_and_distinct_after_strip 10
    [choice_data " A"; choice_data "a "])))) (conj Hlen Hnd)) as [Hcheck Hfield].
  assert (ChoiceSerializer_many [choice_data " A"; choice_data "a "] =
          inr [choice_data "A"; choice_data "a"]) as Hmany.
  { apply (Hfield [" A"; "a "]); [reflexivity|].
    repeat constructor; vm_compute; done. }
  split; [done|]. split; [by apply Hcheck|].
  apply (proj1 (proj2 (proj2 (proj2 (choices_bounds_and_distinct_after_strip 10
    [choice_data "A"; choice_data " A"]))))); [|reflexivity].
  right; right. exists 0, 1, (Some "A"). repeat split; [lia|reflexivity..].
Defined.

Example validate_choices_1_rejected :
  validate_choices (numbered_choices 1) = inl (ValidationError "Should be at least two.").
Proof. reflexivity. Qed.

Example validate_choices_2_accepted :
  validate_choices (numbered_choices 2) = inr (numbered_choices 2).
Proof. vm_compute. reflexivity. Qed.

Example validate_choices_20_accepted :
  validate_choices (numbered_choices 20) = inr (numbered_choices 20).
Proof. vm_compute. reflexivity. Qed.

Example validate_choices_21_rejected :
  validate_choices (numbered_choices 21) = inl (ValidationError "Should not be more than 20.").
Proof. reflexivity. Qed.

Example validate_choices_duplicate_rejected :
  validate_choices [choice_data "Duplicate choice"; choice_data "Some choice";
                    choice_data "Duplicate choice"] =
  inl (ValidationError "Should be unique.").
Proof. vm_compute. reflexivity. Qed.

Lemma unauthenticated_request_rejected_witness :
  dispatch 10 100 100 (question_choice_detail 1 1)
    {| method := GET; user := None; data := no_data |} empty_store =
  ({| status_code := 403; content := Error NotAuthenticated |}, empty_store).
Proof. apply unauthenticated_request_rejected. reflexivity. Defined.

Lemma unpublished_question_not_found_witness :
  dispatch 10 100 100 (question_detail 2)
    {| method := DELETE; user := Some alice; data := no_data |} sample_store =
  ({| status_code := 404; content := Error Http404 |}, sample_store).
Proof.
  refine (proj2 (unpublished_question_not_found 10 100 100 sample_store 2
    (Build_Question alice "Future question" 500 40) alice no_data _ _ _));
    [lia | reflexivity | simpl; lia].
Defined.

Lemma sample_question_published : is_published 100 sample_store 1.
Proof.
  exists (Build_Question alice "Past question" 50 40).
  split; [reflexivity|split; [simpl; lia|vm_compute; lia]].
Qed.

Lemma sample_votes :
  map_to_list (vote_table sample_store) =
  [(2, Build_Vote alice 3 false); (1, Build_Vote bob 1 true)].
Proof. vm_compute. reflexivity. Qed.

Lemma sample_alice_holds_no_vote : ¬ holds_vote sample_store alice 1.
Proof.
  intros (k & v & c & Hv & Hvoter & Hc & Hq).
  apply elem_of_map_to_list in Hv. rewrite sample_votes in Hv.
  repeat (apply elem_of_cons in Hv as [Hv|Hv]); [| |by apply elem_of_nil in Hv];
    injection Hv as -> ->; simpl in *.
  - vm_compute in Hc. injection Hc as <-. simpl in Hq. lia.
  - lia.
Qed.

Lemma sample_alice_has_no_vote_for k v choice_pk :
  choice_pk ≠ 3 →
  vote_table sample_store !! k = Some v → user_pk (voter v) = user_pk alice →
  choice v ≠ choice_pk.
Proof.
  intros Hne Hv Hvoter. apply elem_of_map_to_list in Hv. rewrite sample_votes in Hv.
  repeat (apply elem_of_cons in Hv as [Hv|Hv]); [| |by apply elem_of_nil in Hv];
    injection Hv as -> ->; simpl in *; [done|lia].
Qed.

(** C9, as stated, fails: the vote that [alice] sends as a form without
    [hide_voter] is created, and stored with [hide_voter] not set: the field
    reads the missing key of a form as [False], the model default does not
    apply, and her name is shown. *)
Lemma form_vote_without_hide_voter_not_hidden :
  ¬ (∀ (loaded now : Z) (st st' : Store) (question_pk choice_pk : nat) (u : User) (d : Data)
       (response : Response),
       data_hide_voter d = None →
       dispatch 10 loaded now (question_choice_vote_list question_pk choice_pk)
         {| method := POST; user := Some u; data := d |} st = (response, st') →
       status_code response = 201 →
       ∃ new_pk v, vote_table st !! new_pk = None ∧ vote_table st' !! new_pk = Some v ∧
                   hide_voter v = true).
Proof.
  intros H.
  pose (request := {| method := POST; user := Some alice; data := vote_form None None |}).
  pose (result := dispatch 10 100 100 (question_choice_vote_list 1 2) request sample_store).
  assert (map_to_list (vote_table result.2) =
          [(2, Build_Vote alice 3 false); (3, Build_Vote alice 2 false);
           (1, Build_Vote bob 1 true)]) as Hvotes by (vm_compute; reflexivity).
  assert (status_code result.1 = 201) as Hstatus by (vm_compute; reflexivity).
  destruct (H 100%Z 100%Z sample_store result.2 1 2 alice (vote_form None None) result.1
              eq_refl (surjective_pairing _) Hstatus)
    as (new_pk & v & Hnone & Hsome & Hhide).
  apply elem_of_map_to_list in Hsome. rewrite Hvotes in Hsome.
  repeat (apply elem_of_cons in Hsome as [Hsome|Hsome]); [| | |by apply elem_of_nil in Hsome];
    injection Hsome as -> ->; (discriminate Hhide || (vm_compute in Hnone; discriminate Hnone)).
Qed.

Example form_vote_created_with_name_shown :
  (dispatch 10 100 100 (question_choice_vote_list 1 2)
     {| method := POST; user := Some alice; data := vote_form None None |} sample_store).1 =
  {| status_code := 201;
     content := OneVote {| vote_id := 3; voter_username := "alice" |} |}.
Proof. vm_compute. reflexivity. Qed.

Lemma voter_username_hidden_unless_revealed_witness :
  dispatch 10 100 100 (question_choice_vote_detail 1 1 1)
    {| method := GET; user := Some bob; data := no_data |} sample_store =
    ({| status_code := 200;
        content := OneVote {| vote_id := 1; voter_username := "*******" |} |}, sample_store) ∧
  dispatch 10 100 100 (question_choice_vote_detail 2 3 2)
    {| method := GET; user := Some alice; data := no_data |} sample_store =
    ({| status_code := 200;
        content := OneVote {| vote_id := 2; voter_username := "alice" |} |}, sample_store) ∧
  (dispatch 10 100 100 (question_choice_vote_list 1 2)
     {| method := POST; user := Some alice; data := no_data |} sample_store).1 =
    {| status_code := 201;
       content := OneVote {| vote_id := 3; voter_username := "*******" |} |}.
Proof.
  split; [|split].
  - exact (proj1 (proj2 (proj2 (voter_username_hidden_unless_revealed
      10 100 100 sample_store 1 1 1 bob no_data))) (Build_Vote bob 1 true)
      eq_refl eq_refl eq_refl).
  - exact (proj1 (proj2 (proj2 (voter_username_hidden_unless_revealed
      10 100 100 sample_store 2 3 2 alice no_data))) (Build_Vote alice 3 false)
      eq_refl eq_refl eq_refl).
  - rewrite (proj1 (proj2 (proj2 (proj2 (voter_username_hidden_unless_revealed
      10 100 100 sample_store 1 2 1 alice no_data)))) (Build_Choice 1 "Second choice")
      sample_question_published sample_alice_holds_no_vote eq_refl
      (λ H, match is_Some_None H with end)
      (λ k v, sample_alice_has_no_vote_for k v 2 ltac:(lia)) eq_refl).
    vm_compute. reflexivity.
Defined.

Example vote_created_hidden_by_default :
  (dispatch 10 100 100 (question_choice_vote_list 1 2)
     {| method := POST; user := Some alice; data := no_data |} sample_store).1 =
  {| status_code := 201;
     content := OneVote {| vote_id := 3; voter_username := "*******" |} |}.
Proof. vm_compute. reflexivity. Qed.

Lemma author_and_voter_only_mutation_witness :
  dispatch 10 100 100 (question_detail 1)
    {| method := DELETE; user := Some bob; data := no_data |} sample_store =
    ({| status_code := 403; content := Error PermissionDenied |}, sample_store) ∧
  dispatch 10 100 100 (question_choice_vote_detail 1 1 1)
    {| method := DELETE; user := Some alice; data := no_data |} sample_store =
    ({| status_code := 403; content := Error PermissionDenied |}, sample_store).
Proof.
  pose proof (author_and_voter_only_mutation 10 100 100 sample_store bob no_data)
    as (_ & _ & _ & Hq & _).
  pose proof (author_and_voter_only_mutation 10 100 100 sample_store alice no_data)
    as (_ & _ & _ & _ & Hv & _).
  split.
  - refine (proj2 (Hq 1 (Build_Question alice "Past question" 50 40) _)).
    apply elem_of_published.
    split; [reflexivity|split; [simpl; lia|vm_compute; lia]].
  - refine (Hv 1 1 (Build_Vote bob 1 true) DELETE eq_refl _ _);
      [repeat constructor|simpl; lia].
Defined.



(** After [alice] has created two published questions and [bob] has voted
    once under each, a PUT moves the second vote of [bob] to the other
    choice of the first question: the check of [validate] is not made on
    update, and [bob] holds two votes for choices of one question. *)
Example update_gives_second_vote_on_question :
  let st1 := after 10 empty_store question_list
    {| method := POST; user := Some alice;
       data := question_data "First question" 50 [choice_data "A"; choice_data "B"] |} in
  let st2 := after 10 st1 question_list
    {| method := POST; user := Some alice;
       data := question_data "Second question" 60 [choice_data "C"; choice_data "D"] |} in
  let st3 := after 10 st2 (question_choice_vote_list 1 1)
    {| method := POST; user := Some bob; data := no_data |} in
  let st4 := after 10 st3 (question_choice_vote_list 2 3)
    {| method := POST; user := Some bob; data := no_data |} in
  let response := dispatch 10 100 100 (question_choice_vote_detail 1 3 2)
    {| method := PUT; user := Some bob; data := vote_data (Some 2) None |} st4 in
  status_code response.1 = 200 ∧
  vote_table response.2 !! 1 = Some (Build_Vote bob 1 true) ∧
  vote_table response.2 !! 2 = Some (Build_Vote bob 2 true).
Proof. vm_compute. repeat split. Qed.

(** C5, as stated, fails: in the store that three requests of [alice]
    reach, choice 1 belongs to question 1, and the POST by [bob] of a vote
    for choice 1 under the path of question 2, whose publication date is in
    the future, is not answered with 400: [validate_choice] looks the
    question up in the published queryset and raises [DoesNotExist]. *)
Lemma cross_question_choice_under_unpublished_question_not_400 :
  ¬ (∀ (loaded now : Z) (st : Store) (question_pk choice_pk : nat) (u : User) (d : Data)
       (target : nat) (c : Choice),
       data_choice d = Some target →
       choice_table st !! target = Some c →
       question c ≠ question_pk →
       status_code
         (dispatch 10 loaded now (question_choice_vote_list question_pk choice_pk)
            {| method := POST; user := Some u; data := d |} st).1 = 400).
Proof.
  intros H.
  specialize (H 100%Z 100%Z (reached_store 10) 2 3 bob (vote_data (Some 1) None) 1
                (Build_Choice 1 "A") eq_refl).
  assert (choice_table (reached_store 10) !! 1 = Some (Build_Choice 1 "A")) as Hc
    by (vm_compute; reflexivity).
  assert (question (Build_Choice 1 "A") ≠ 2) as Hne by (simpl; lia).
  specialize (H Hc Hne). vm_compute in H. discriminate H.
Qed.

Lemma cross_question_choice_is_validation_failure_witness :
  dispatch 10 100 100 (question_choice_vote_list 1 1)
    {| method := POST; user := Some alice; data := vote_data (Some 3) None |} sample_store =
  ({| status_code := 400;
      content := Error (ValidationError "Is not accepted by this question.") |},
   sample_store).
Proof.
  refine (proj1 (cross_question_choice_is_validation_failure 10 100 100 sample_store 1 1 alice
    (vote_data (Some 3) None) 3 (Build_Choice 2 "Third choice") _ _ _ _)).
  - apply sample_question_published.
  - reflexivity.
  - reflexivity.
  - simpl; lia.
Defined.


(** The test [test_put_vote_change_invalid_choice] of the repository: the
    PUT of a vote to a choice that does not exist answers 400 and the vote
    keeps its choice. *)
Example put_vote_change_invalid_choice :
  let response := dispatch 10 100 100 (question_choice_vote_detail 1 1 1)
    {| method := PUT; user := Some bob; data := vote_data (Some 7) None |} sample_store in
  status_code response.1 = 400 ∧
  vote_table response.2 !! 1 = Some (Build_Vote bob 1 true).
Proof. vm_compute. repeat split. Qed.

Lemma failed_request_writes_nothing_witness :
  (dispatch 10 100 100 question_list
     {| method := POST; user := Some alice;
        data := question_data "Past question" 50 [choice_data "A"; choice_data "B"] |}
     sample_store).2 = sample_store.
Proof. apply failed_request_writes_nothing. vm_compute. lia. Defined.

Lemma safe_method_writes_nothing_witness :
  (dispatch 10 100 100 (question_choice_list 1)
     {| method := GET; user := Some bob; data := no_data |} sample_store).2 = sample_store.
Proof. apply safe_method_writes_nothing. repeat constructor. Defined.

Lemma unsupported_method_not_allowed_witness :
  dispatch 10 100 100 (question_detail 1)
    {| method := PUT; user := Some alice; data := no_data |} sample_store =
  ({| status_code := 405; content := Error MethodNotAllowed |}, sample_store).
Proof.
  refine (proj1 (proj2 (unsupported_method_not_allowed 10 100 100 sample_store alice no_data
    PUT)) _ 1).
  repeat constructor.
Defined.

Lemma key_in_range_small pk : pk < 1000 → key_in_range pk.
Proof. unfold key_in_range. lia. Qed.

Lemma choices_served_without_publication_gate_witness :
  dispatch 10 100 100 (question_choice_detail 1 1)
    {| method := GET; user := Some alice; data := no_data |} sample_store =
    ({| status_code := 200;
        content := OneChoice {| choice_id := 1; choice_text_repr := "First choice";
                                vote_count := 1 |} |}, sample_store) ∧
  dispatch 10 100 100 (question_choice_detail 1 3)
    {| method := GET; user := Some alice; data := no_data |} sample_store =
    ({| status_code := 404; content := Error Http404 |}, sample_store).
Proof.
  split.
  - rewrite (proj2 (choices_served_without_publication_gate 10 100 100 sample_store 1 1
      alice no_data (key_in_range_small 1 ltac:(lia)) (key_in_range_small 1 ltac:(lia)))).
    vm_compute. reflexivity.
  - rewrite (proj2 (choices_served_without_publication_gate 10 100 100 sample_store 1 3
      alice no_data (key_in_range_small 1 ltac:(lia)) (key_in_range_small 3 ltac:(lia)))).
    vm_compute. reflexivity.
Defined.

(** The list of the choices of question 1: two choices, the first with the
    vote of [bob]. *)
Example choices_of_sample_question :
  (dispatch 10 100 100 (question_choice_list 1)
     {| method := GET; user := Some alice; data := no_data |} sample_store).1 =
  {| status_code := 200;
     content := Choices 2
       [ {| choice_id := 1; choice_text_repr := "First choice"; vote_count := 1 |};
         {| choice_id := 2; choice_text_repr := "Second choice"; vote_count := 0 |} ] |}.
Proof. vm_compute. reflexivity. Qed.

Lemma vote_detail_read_by_voter_only_witness :
  dispatch 10 100 100 (question_choice_vote_detail 1 1 1)
    {| method := GET; user := Some alice; data := no_data |} sample_store =
    ({| status_code := 403; content := Error PermissionDenied |}, sample_store) ∧
  dispatch 10 100 100 (question_choice_vote_detail 1 2 1)
    {| method := GET; user := Some bob; data := no_data |} sample_store =
    ({| status_code := 404; content := Error Http404 |}, sample_store).
Proof.
  split.
  - rewrite (vote_detail_read_by_voter_only 10 100 100 sample_store 1 1 1 alice no_data
      (key_in_range_small 1 ltac:(lia)) (key_in_range_small 1 ltac:(lia))).
    vm_compute. reflexivity.
  - rewrite (vote_detail_read_by_voter_only 10 100 100 sample_store 1 2 1 bob no_data
      (key_in_range_small 2 ltac:(lia)) (key_in_range_small 1 ltac:(lia))).
    vm_compute. reflexivity.
Defined.

Lemma question_served_by_load_time_clock_witness :
  dispatch 10 100 1000 (question_detail 2)
    {| method := GET; user := Some alice; data := no_data |} sample_store =
    ({| status_code := 404; content := Error Http404 |}, sample_store) ∧
  (dispatch 10 1000 1000 (question_detail 2)
     {| method := GET; user := Some alice; data := no_data |} sample_store).1 =
    {| status_code := 200;
       content := OneQuestion
         (serialize_question (2, Build_Question alice "Future question" 500 40)) |}.
Proof.
  split.
  - rewrite (question_served_by_load_time_clock 10 100 1000 sample_store 2 alice no_data
      (key_in_range_small 2 ltac:(lia))).
    vm_compute. reflexivity.
  - rewrite (question_served_by_load_time_clock 10 1000 1000 sample_store 2 alice no_data
      (key_in_range_small 2 ltac:(lia))).
    vm_compute. reflexivity.
Defined.

(** With pages of two rows, the list of three published questions answers
    the count 3 and the two most recent of them. *)
Example question_list_first_page :
  let st1 := after 2 empty_store question_list
    {| method := POST; user := Some alice;
       data := question_data "First question" 50 [choice_data "A"; choice_data "B"] |} in
  let st2 := after 2 st1 question_list
    {| method := POST; user := Some alice;
       data := question_data "Second question" 70 [choice_data "C"; choice_data "D"] |} in
  let st3 := after 2 st2 question_list
    {| method := POST; user := Some bob;
       data := question_data "Third question" 60 [choice_data "E"; choice_data "F"] |} in
  (dispatch 2 100 100 question_list
     {| method := GET; user := Some bob; data := no_data |} st3).1 =
  {| status_code := 200;
     content := Questions 3
       [ serialize_question (2, Build_Question alice "Second question" 70 100);
         serialize_question (3, Build_Question bob "Third question" 60 100) ] |}.
Proof. vm_compute. reflexivity. Qed.

Lemma sample_questions :
  map_to_list (question_table sample_store) =
  [(2, Build_Question alice "Future question" 500 40);
   (1, Build_Question alice "Past question" 50 40)].
Proof. vm_compute. reflexivity. Qed.

Lemma sample_question_text_free text k q :
  text ≠ "Future question" → text ≠ "Past question" →
  question_table sample_store !! k = Some q → question_text q ≠ text.
Proof.
  intros H1 H2 Hk. apply elem_of_map_to_list in Hk. rewrite sample_questions in Hk.
  repeat (apply elem_of_cons in Hk as [Hk|Hk]); [| |by apply elem_of_nil in Hk];
    injection Hk as -> ->; simpl; congruence.
Qed.

Lemma QuestionManager_create_persists_all_witness :
  ∃ st' rows,
    QuestionManager_create 100 bob "New question" 60
      [choice_data "A"; choice_data "B"] sample_store =
      (inr (3, Build_Question bob "New question" 60 100), st') ∧
    question_table st' =
      <[3 := Build_Question bob "New question" 60 100]> (question_table sample_store) ∧
    question_seq st' = 3 ∧
    vote_table st' = vote_table sample_store ∧
    rows.*2 = Build_Choice 3 <$> ["A"; "B"] ∧
    map_to_list (choice_table st') ≡ₚ rows ++ map_to_list (choice_table sample_store) ∧
    choice_count st' 3 = 2.
Proof.
  destruct (QuestionManager_create_persists_all 100 bob "New question" 60
    [choice_data "A"; choice_data "B"] ["A"; "B"] sample_store)
    as (st' & rows & Hcreate & _ & _ & Hqt & Hseq & Hvt & Hrows & Hperm & Hcount).
  - intros k q. by apply sample_question_text_free.
  - reflexivity.
  - repeat constructor; set_solver.
  - vm_compute. reflexivity.
  - by exists st', rows.
Defined.

Lemma valid_question_is_created_witness :
  ∃ st',
    dispatch 10 100 200 question_list
      {| method := POST; user := Some bob;
         data := question_data "  New question " 150 [choice_data "A "; choice_data " B"] |}
      sample_store =
      ({| status_code := 201;
          content := OneQuestion
            (serialize_question (3, Build_Question bob "New question" 150 200)) |}, st') ∧
    choice_count st' 3 = 2 ∧
    dispatch 10 100 200 (question_detail 3)
      {| method := GET; user := Some alice; data := no_data |} st' =
      ({| status_code := 404; content := Error Http404 |}, st').
Proof.
  destruct (valid_question_is_created 10 100 200 sample_store bob alice
    (question_data "  New question " 150 [choice_data "A "; choice_data " B"])
    "  New question " 150 [choice_data "A "; choice_data " B"] ["A "; " B"])
    as (st' & rows & Hpost & _ & _ & _ & _ & _ & _ & Hcount & Hget); try reflexivity.
  - vm_compute. repeat split; [done|lia].
  - intros k q. by apply sample_question_text_free.
  - repeat constructor; vm_compute; done || lia.
  - simpl; lia.
  - vm_compute. repeat constructor; set_solver.
  - by exists st'.
Defined.

Lemma duplicate_question_text_rejected_witness :
  ∃ detail,
    dispatch 10 100 100 question_list
      {| method := POST; user := Some bob;
         data := question_data " Past question" 60 [choice_data "A"; choice_data "B"] |}
      sample_store =
    ({| status_code := 400; content := Error (ValidationError detail) |}, sample_store).
Proof.
  apply (duplicate_question_text_rejected 10 100 100 sample_store bob _ 1
           (Build_Question alice "Past question" 50 40) " Past question"); reflexivity.
Defined.

(** The text of a question is compared after it is stripped: a stored text
    that begins with a blank, which no POST stores, is not taken by the same
    text in a body. *)
Example text_with_blank_is_not_taken :
  let st := {| question_table := {[ 1 := Build_Question alice " Old question" 50 40 ]};
               choice_table := ∅; vote_table := ∅;
               question_seq := 1; choice_seq := 0; vote_seq := 0 |} in
  status_code
    (dispatch 10 100 100 question_list
       {| method := POST; user := Some bob;
          data := question_data " Old question" 60 [choice_data "A"; choice_data "B"] |}
       st).1 = 201.
Proof. vm_compute. reflexivity. Qed.

Lemma question_delete_cascades_witness :
  ∃ st',
    dispatch 10 100 100 (question_detail 1)
      {| method := DELETE; user := Some alice; data := no_data |} sample_store =
      ({| status_code := 204; content := NoContent |}, st') ∧
    question_table st' = delete 1 (question_table sample_store) ∧
    choice_count st' 1 = 0.
Proof.
  destruct (question_delete_cascades 10 100 100 sample_store 1
    (Build_Question alice "Past question" 50 40) alice no_data)
    as (st' & Hdelete & Hqt & _ & _ & Hcount).
  - reflexivity.
  - simpl; lia.
  - vm_compute; lia.
  - reflexivity.
  - by exists st'.
Defined.

Lemma vote_created_counts_once_witness :
  length (VoteViewSet_get_queryset
            (dispatch 10 100 100 (question_choice_vote_list 1 2)
               {| method := POST; user := Some alice; data := no_data |} sample_store).2 2) =
  length (VoteViewSet_get_queryset sample_store 2) + 1.
Proof.
  refine (proj2 (proj2 (proj2 (proj2 (vote_created_counts_once 10 100 100 sample_store _ 1 2
    alice no_data _ _ _)))) 2).
  - apply surjective_pairing.
  - vm_compute. reflexivity.
Defined.

Lemma vote_update_moves_one_count_witness :
  ∃ old,
    vote_table sample_store !! 1 = Some old ∧
    length (VoteViewSet_get_queryset
              (dispatch 10 100 100 (question_choice_vote_detail 1 1 1)
                 {| method := PUT; user := Some bob; data := vote_data (Some 2) None |}
                 sample_store).2 1) + 1 =
    length (VoteViewSet_get_queryset sample_store 1) + 0.
Proof.
  destruct (vote_update_moves_one_count 10 100 100 sample_store _ 1 1 1
    {| method := PUT; user := Some bob; data := vote_data (Some 2) None |} _
    ltac:(repeat constructor) (surjective_pairing _))
    as (old & Hold & _ & _ & Hcount).
  - vm_compute. reflexivity.
  - exists old. split; [done|]. apply (Hcount 1).
Defined.

(** A PUT that is sent as a form without [hide_voter] shows the name of a
    voter who was hidden; the same PUT with a JSON body, and a PATCH, keep
    the vote hidden. *)
Example form_put_without_hide_voter_shows_voter :
  let update m d :=
    (dispatch 10 100 100 (question_choice_vote_detail 1 1 1)
       {| method := m; user := Some bob; data := d |} sample_store).1 in
  let answer name :=
    {| status_code := 200; content := OneVote {| vote_id := 1; voter_username := name |} |} in
  update PUT (vote_form None None) = answer "bob" ∧
  update PUT (vote_data None None) = answer "*******" ∧
  update PATCH (vote_form None None) = answer "*******".
Proof. vm_compute. repeat split. Qed.

Example dynamic_fields_of_vote_serializer :
  DynamicFieldsModelSerializer_init (Some ["voter_username"; "id"; "url"])
    VoteSerializer_fields =
  Some [("id", false); ("voter_username", false)].
Proof. vm_compute. reflexivity. Qed.

Lemma vote_created_for_choice_of_path_witness :
  (dispatch 10 100 100 (question_choice_vote_list 1 3)
     {| method := POST; user := Some alice; data := vote_data None (Some false) |}
     (after 10 sample_store (question_choice_vote_detail 2 3 2)
        {| method := DELETE; user := Some alice; data := no_data |})).1 =
  {| status_code := 201; content := OneVote {| vote_id := 3; voter_username := "alice" |} |}.
Proof.
  set (st := after 10 sample_store (question_choice_vote_detail 2 3 2)
               {| method := DELETE; user := Some alice; data := no_data |}).
  assert (map_to_list (vote_table st) = [(1, Build_Vote bob 1 true)]) as Hvotes
    by (vm_compute; reflexivity).
  assert (is_published 100 st 1) as Hpub.
  { exists (Build_Question alice "Past question" 50 40).
    split; [vm_compute; reflexivity|split; [simpl; lia|vm_compute; lia]]. }
  assert (¬ holds_vote st alice 1) as Hnone.
  { intros (k & v & c & Hv & Hvoter & _).
    apply elem_of_map_to_list in Hv. rewrite Hvotes in Hv.
    apply list_elem_of_singleton in Hv. injection Hv as -> ->. simpl in Hvoter. lia. }
  assert (choice_table st !! 3 = Some (Build_Choice 2 "Third choice")) as Hc
    by (vm_compute; reflexivity).
  assert (∀ k v, vote_table st !! k = Some v → user_pk (voter v) = user_pk alice →
                 choice v ≠ 3) as Hfree.
  { intros k v Hv Hvoter.
    apply elem_of_map_to_list in Hv. rewrite Hvotes in Hv.
    apply list_elem_of_singleton in Hv. injection Hv as -> ->. simpl in Hvoter. lia. }
  rewrite (proj2 (proj2 (vote_created_for_choice_of_path 10 100 100 st 1 3 alice
             (vote_data None (Some false)) (Build_Choice 2 "Third choice")
             Hpub Hnone eq_refl Hc Hfree))).
  vm_compute. reflexivity.
Defined.

Lemma every_request_keeps_the_constraints_witness :
  store_consistent
    (dispatch 10 100 100 (question_detail 1)
       {| method := DELETE; user := Some alice; data := no_data |} sample_store).2.
Proof. apply every_request_keeps_the_constraints, sample_store_consistent. Defined.

Lemma vote_deleted_by_voter_uncounts_witness :
  ∃ st',
    dispatch 10 100 100 (question_choice_vote_detail 1 1 1)
      {| method := DELETE; user := Some bob; data := no_data |} sample_store =
      ({| status_code := 204; content := NoContent |}, st') ∧
    length (VoteViewSet_get_queryset st' 1) + 1 =
    length (VoteViewSet_get_queryset sample_store 1).
Proof.
  destruct (vote_deleted_by_voter_uncounts 10 100 100 sample_store 1 1 (Build_Vote bob 1 true)
    bob no_data eq_refl eq_refl) as (st' & Hdelete & _ & _ & _ & Hcount).
  exists st'. split; [done|]. apply (Hcount 1).
Defined.
